(** * httpfuzz: body cloning, plugin broker and plugin loader

    A shallow embedding of [http.go] (the [Request] and [Response] wrappers
    with their [CloneBody] methods, and [Client.Do]), of the plugin broker in
    the version that clones per plugin ([SendResult], [SignalDone], [Wait],
    [add], [run], [LoadPlugins]), and of the [SendResult] of [plugin.go],
    which does not clone.

    Go values that are reached through pointers live in a store with one
    region per Go type; a pointer is an index into its region and [None] is
    Go's [nil].  Every operation is a function from the store to an outcome
    and the store it leaves behind, so that what a failed call has already
    done stays observable.  The file has the definitions first: the Go
    values, the store, the operations, the views and the examples; then the
    properties. *)

From Stdlib Require Import ZArith.
From Stdlib.Strings Require Import Byte.
From stdpp Require Import base tactics option list strings gmap.

Open Scope Z_scope.
Open Scope list_scope.

(** ** Go values *)

(** A Go [error] value. *)
Definition error := string.

(** A pointer into one region of the store; [None] is [nil]. *)
Abbreviation ptr := (option nat).

(** An [io.ReadCloser]: the bytes still to be read, and the error the reader
    ends with instead of [io.EOF], if it ends with one. *)
Record Stream := MkStream {
  pending : list byte;
  fault : option error }.

(** [ioutil.NopCloser(bytes.NewReader(body))]. *)
Definition bytes_reader (body : list byte) : Stream :=
  {| pending := body; fault := None |}.

(** [http.Header], a [map[string][]string]. *)
Abbreviation Header := (gmap string (list string)).

(** [context.Context], as far as it is told apart here. *)
Inductive Context :=
  | Background
  | OtherContext (id : nat).

(** The fields of [http.Request] that [Request.Clone] treats differently,
    with a few plain ones. *)
Record HttpRequest := MkHttpRequest {
  rq_Method : string;
  rq_URL : string;
  rq_Proto : string;
  rq_Header : ptr;
  rq_Body : ptr;
  rq_ContentLength : Z;
  rq_TransferEncoding : list string;
  rq_Close : bool;
  rq_Host : string;
  rq_Trailer : ptr;
  rq_ctx : Context }.

(** [http.Response]. *)
Record HttpResponse := MkHttpResponse {
  rs_Status : string;
  rs_StatusCode : Z;
  rs_Proto : string;
  rs_ProtoMajor : Z;
  rs_ProtoMinor : Z;
  rs_Header : ptr;
  rs_Body : ptr;
  rs_ContentLength : Z;
  rs_TransferEncoding : list string;
  rs_Close : bool;
  rs_Uncompressed : bool;
  rs_Trailer : ptr;
  rs_Request : ptr;
  rs_TLS : ptr }.

(** [new(http.Response)]: every field at its zero value. *)
Definition zero_HttpResponse : HttpResponse :=
  {| rs_Status := EmptyString; rs_StatusCode := 0; rs_Proto := EmptyString;
     rs_ProtoMajor := 0; rs_ProtoMinor := 0; rs_Header := None;
     rs_Body := None; rs_ContentLength := 0; rs_TransferEncoding := [];
     rs_Close := false; rs_Uncompressed := false; rs_Trailer := None;
     rs_Request := None; rs_TLS := None |}.

(** [type Request struct { *http.Request }]. *)
Record Request := MkRequest { req_inner : ptr }.

(** [type Response struct { *http.Response }]. *)
Record Response := MkResponse { resp_inner : ptr }.

(** [type Result struct]. *)
Record Result := MkResult {
  Request_ : ptr;
  Response_ : ptr;
  Payload : string;
  Location : string;
  FieldName : string;
  TimeElapsed : Z }.

(** An implementation of the [Listener] interface, by name. *)
Record Listener := MkListener { listener_id : nat }.

(** [type pluginInfo struct]: [Input] is the channel, [Listener] embedded. *)
Record pluginInfo := MkPluginInfo {
  Input : nat;
  plugin_Listener : Listener }.

(** [type PluginBroker struct]; [waitGroup] is the counter of the
    [sync.WaitGroup]. *)
Record PluginBroker := MkPluginBroker {
  plugins : list pluginInfo;
  waitGroup : Z }.

(** An unbuffered channel of [Result] pointers: whether it has been closed, and the
    pointers handed over on it so far, oldest first. *)
Record Chan := MkChan {
  closed : bool;
  handed : list ptr }.

(** The goroutine started by [run]: it calls [Listen] of its plugin on its
    channel and then [Done] on the wait group of its broker. *)
Inductive Phase := Listening | Returned.

Record Goroutine := MkGoroutine {
  g_listener : Listener;
  g_results : nat;
  g_broker : ptr;
  g_phase : Phase }.

(** ** The store *)

Record World := MkWorld {
  streams : list Stream;
  headers : list Header;
  httpRequests : list HttpRequest;
  httpResponses : list HttpResponse;
  requests : list Request;
  responses : list Response;
  results : list Result;
  chans : list Chan;
  brokers : list PluginBroker;
  goroutines : list Goroutine }.

Definition empty_world : World :=
  MkWorld [] [] [] [] [] [] [] [] [] [].

Definition set_streams (f : list Stream → list Stream) (w : World) : World :=
  MkWorld (f (streams w)) (headers w) (httpRequests w) (httpResponses w)
    (requests w) (responses w) (results w) (chans w) (brokers w) (goroutines w).
Definition set_headers (f : list Header → list Header) (w : World) : World :=
  MkWorld (streams w) (f (headers w)) (httpRequests w) (httpResponses w)
    (requests w) (responses w) (results w) (chans w) (brokers w) (goroutines w).
Definition set_httpRequests (f : list HttpRequest → list HttpRequest) (w : World) : World :=
  MkWorld (streams w) (headers w) (f (httpRequests w)) (httpResponses w)
    (requests w) (responses w) (results w) (chans w) (brokers w) (goroutines w).
Definition set_httpResponses (f : list HttpResponse → list HttpResponse) (w : World) : World :=
  MkWorld (streams w) (headers w) (httpRequests w) (f (httpResponses w))
    (requests w) (responses w) (results w) (chans w) (brokers w) (goroutines w).
Definition set_requests (f : list Request → list Request) (w : World) : World :=
  MkWorld (streams w) (headers w) (httpRequests w) (httpResponses w)
    (f (requests w)) (responses w) (results w) (chans w) (brokers w) (goroutines w).
Definition set_responses (f : list Response → list Response) (w : World) : World :=
  MkWorld (streams w) (headers w) (httpRequests w) (httpResponses w)
    (requests w) (f (responses w)) (results w) (chans w) (brokers w) (goroutines w).
Definition set_results (f : list Result → list Result) (w : World) : World :=
  MkWorld (streams w) (headers w) (httpRequests w) (httpResponses w)
    (requests w) (responses w) (f (results w)) (chans w) (brokers w) (goroutines w).
Definition set_chans (f : list Chan → list Chan) (w : World) : World :=
  MkWorld (streams w) (headers w) (httpRequests w) (httpResponses w)
    (requests w) (responses w) (results w) (f (chans w)) (brokers w) (goroutines w).
Definition set_brokers (f : list PluginBroker → list PluginBroker) (w : World) : World :=
  MkWorld (streams w) (headers w) (httpRequests w) (httpResponses w)
    (requests w) (responses w) (results w) (chans w) (f (brokers w)) (goroutines w).
Definition set_goroutines (f : list Goroutine → list Goroutine) (w : World) : World :=
  MkWorld (streams w) (headers w) (httpRequests w) (httpResponses w)
    (requests w) (responses w) (results w) (chans w) (brokers w) (f (goroutines w)).

(** A region: how to read it out of the store and how to change it. *)
Record Region (A : Type) := MkRegion {
  rget : World → list A;
  rset : (list A → list A) → World → World }.
Arguments rget {A} _ _.
Arguments rset {A} _ _ _.

Definition streamsR := MkRegion Stream streams set_streams.
Definition headersR := MkRegion Header headers set_headers.
Definition httpRequestsR := MkRegion HttpRequest httpRequests set_httpRequests.
Definition httpResponsesR := MkRegion HttpResponse httpResponses set_httpResponses.
Definition requestsR := MkRegion Request requests set_requests.
Definition responsesR := MkRegion Response responses set_responses.
Definition resultsR := MkRegion Result results set_results.
Definition chansR := MkRegion Chan chans set_chans.
Definition brokersR := MkRegion PluginBroker brokers set_brokers.
Definition goroutinesR := MkRegion Goroutine goroutines set_goroutines.

(** ** Outcomes and the monad of store-passing operations *)

(** How a Go call ends: it returns a value with a [nil] error, it returns a
    non-[nil] error (and a [nil] value), it panics, or it blocks for good. *)
Inductive Res (A : Type) :=
  | Ok (a : A)
  | Fail (e : error)
  | Panic
  | Blocked.
Arguments Ok {A} a.
Arguments Fail {A} e.
Arguments Panic {A}.
Arguments Blocked {A}.

Definition M (A : Type) : Type := World → Res A * World.

Definition ret {A} (a : A) : M A := λ w, (Ok a, w).
Definition throw {A} (e : error) : M A := λ w, (Fail e, w).
Definition panic {A} : M A := λ w, (Panic, w).
Definition block {A} : M A := λ w, (Blocked, w).

Definition bind {A B} (m : M A) (k : A → M B) : M B :=
  λ w, match m w with
       | (Ok a, w') => k a w'
       | (Fail e, w') => (Fail e, w')
       | (Panic, w') => (Panic, w')
       | (Blocked, w') => (Blocked, w')
       end.

Declare Scope go_scope.
Delimit Scope go_scope with go.
Notation "x <- m ;; k" := (bind m (λ x, k))
  (at level 100, m at next level, right associativity) : go_scope.
Notation "m ;;; k" := (bind m (λ _, k))
  (at level 100, right associativity) : go_scope.
Open Scope go_scope.

(** [&T{...}] and [new(T)]: a fresh object at the end of its region. *)
Definition alloc {A} (R : Region A) (x : A) : M nat :=
  λ w, (Ok (length (rget R w)), rset R (λ l, l ++ [x]) w).

(** [*p]: a [nil] pointer panics. *)
Definition load {A} (R : Region A) (p : ptr) : M A :=
  λ w, match p with
       | None => (Panic, w)
       | Some l => match rget R w !! l with
                   | Some x => (Ok x, w)
                   | None => (Panic, w)
                   end
       end.

(** [p.f = v], as a change [f] of the object that [p] points to. *)
Definition modify {A} (R : Region A) (p : ptr) (f : A → A) : M unit :=
  λ w, match p with
       | None => (Panic, w)
       | Some l => match rget R w !! l with
                   | Some x => (Ok tt, rset R (λ r, <[l := f x]> r) w)
                   | None => (Panic, w)
                   end
       end.

(** ** [net/http] and [io/ioutil] *)

(** [Header.Clone]: [nil] stays [nil], otherwise a new map with the same
    keys and copies of the value slices. *)
Definition Header_Clone (h : ptr) : M ptr :=
  match h with
  | None => ret None
  | Some _ =>
      m <- load headersR h ;;
      l <- alloc headersR m ;;
      ret (Some l)
  end.

(** [Clone(ctx)] of [net/http]'s request type: a shallow copy with the new
    context and with deep copies of [Header], [Trailer] and
    [TransferEncoding]; the [Body] is the very reader of the original. *)
Definition http_Request_Clone (r : ptr) (ctx : Context) : M nat :=
  rq <- load httpRequestsR r ;;
  h2 <- Header_Clone (rq_Header rq) ;;
  t2 <- Header_Clone (rq_Trailer rq) ;;
  alloc httpRequestsR
    {| rq_Method := rq_Method rq; rq_URL := rq_URL rq; rq_Proto := rq_Proto rq;
       rq_Header := h2; rq_Body := rq_Body rq;
       rq_ContentLength := rq_ContentLength rq;
       rq_TransferEncoding := rq_TransferEncoding rq;
       rq_Close := rq_Close rq; rq_Host := rq_Host rq;
       rq_Trailer := t2; rq_ctx := ctx |}.

(** What reading to the end leaves of a reader. *)
Definition drained (s : Stream) : Stream :=
  {| pending := []; fault := fault s |}.

(** [ioutil.ReadAll]: reads until [io.EOF] or an error; a [nil] reader
    panics. *)
Definition ReadAll (b : ptr) : M (list byte) :=
  s <- load streamsR b ;;
  modify streamsR b drained ;;;
  match fault s with
  | None => ret (pending s)
  | Some e => throw e
  end.

(** The builtin [copy(dst, src)]: the first [min (len dst) (len src)]
    elements of [dst] are overwritten, its length stays. *)
Definition go_copy {A} (dst src : list A) : list A :=
  take (length dst) src ++ drop (length src) dst.

Definition with_rq_Body (b : ptr) (rq : HttpRequest) : HttpRequest :=
  {| rq_Method := rq_Method rq; rq_URL := rq_URL rq; rq_Proto := rq_Proto rq;
     rq_Header := rq_Header rq; rq_Body := b;
     rq_ContentLength := rq_ContentLength rq;
     rq_TransferEncoding := rq_TransferEncoding rq;
     rq_Close := rq_Close rq; rq_Host := rq_Host rq;
     rq_Trailer := rq_Trailer rq; rq_ctx := rq_ctx rq |}.

Definition with_rs_Header (h : ptr) (rs : HttpResponse) : HttpResponse :=
  {| rs_Status := rs_Status rs; rs_StatusCode := rs_StatusCode rs;
     rs_Proto := rs_Proto rs; rs_ProtoMajor := rs_ProtoMajor rs;
     rs_ProtoMinor := rs_ProtoMinor rs; rs_Header := h;
     rs_Body := rs_Body rs; rs_ContentLength := rs_ContentLength rs;
     rs_TransferEncoding := rs_TransferEncoding rs; rs_Close := rs_Close rs;
     rs_Uncompressed := rs_Uncompressed rs; rs_Trailer := rs_Trailer rs;
     rs_Request := rs_Request rs; rs_TLS := rs_TLS rs |}.

Definition with_rs_Body (b : ptr) (rs : HttpResponse) : HttpResponse :=
  {| rs_Status := rs_Status rs; rs_StatusCode := rs_StatusCode rs;
     rs_Proto := rs_Proto rs; rs_ProtoMajor := rs_ProtoMajor rs;
     rs_ProtoMinor := rs_ProtoMinor rs; rs_Header := rs_Header rs;
     rs_Body := b; rs_ContentLength := rs_ContentLength rs;
     rs_TransferEncoding := rs_TransferEncoding rs; rs_Close := rs_Close rs;
     rs_Uncompressed := rs_Uncompressed rs; rs_Trailer := rs_Trailer rs;
     rs_Request := rs_Request rs; rs_TLS := rs_TLS rs |}.

(** Lines 66 to 77 of [http.go]: what the assignments after the body make
    of [newResponse], [old] being [r.Response] and [t] the cloned trailer. *)
Definition copy_rest (old : HttpResponse) (t : ptr) (new : HttpResponse) : HttpResponse :=
  {| rs_Status := rs_Status old; rs_StatusCode := rs_StatusCode old;
     rs_Proto := rs_Proto old; rs_ProtoMajor := rs_ProtoMajor old;
     rs_ProtoMinor := rs_ProtoMinor old; rs_Header := rs_Header new;
     rs_Body := rs_Body new; rs_ContentLength := rs_ContentLength old;
     rs_TransferEncoding :=
       go_copy (rs_TransferEncoding new) (rs_TransferEncoding old);
     rs_Close := rs_Close old; rs_Uncompressed := rs_Uncompressed old;
     rs_Trailer := t; rs_Request := rs_Request old; rs_TLS := rs_TLS old |}.

(** ** [http.go] *)

(** [Request.CloneBody(ctx)], lines 27 to 44 of [http.go]. *)
Definition Request_CloneBody (r : ptr) (ctx : Context) : M nat :=
  rw <- load requestsR r ;;
  inner <- http_Request_Clone (req_inner rw) ctx ;;
  req <- alloc requestsR {| req_inner := Some inner |} ;;
  rq <- load httpRequestsR (Some inner) ;;
  match rq_Body rq with
  | None => ret req
  | Some _ =>
      body <- ReadAll (rq_Body rq) ;;
      (* Put back the original body *)
      ob <- alloc streamsR (bytes_reader body) ;;
      modify httpRequestsR (req_inner rw) (with_rq_Body (Some ob)) ;;;
      (* Clone the request body *)
      cb <- alloc streamsR (bytes_reader body) ;;
      modify httpRequestsR (Some inner) (with_rq_Body (Some cb)) ;;;
      ret req
  end.

(** [Response.CloneBody()], lines 52 to 79 of [http.go]. *)
Definition Response_CloneBody (r : ptr) : M nat :=
  newResponse <- alloc httpResponsesR zero_HttpResponse ;;
  rw <- load responsesR r ;;
  old <- load httpResponsesR (resp_inner rw) ;;
  h <- Header_Clone (rs_Header old) ;;
  modify httpResponsesR (Some newResponse) (with_rs_Header h) ;;;
  body <- ReadAll (rs_Body old) ;;
  (* Put back the original body *)
  ob <- alloc streamsR (bytes_reader body) ;;
  modify httpResponsesR (resp_inner rw) (with_rs_Body (Some ob)) ;;;
  (* Clone the request body *)
  cb <- alloc streamsR (bytes_reader body) ;;
  modify httpResponsesR (Some newResponse) (with_rs_Body (Some cb)) ;;;
  t <- Header_Clone (rs_Trailer old) ;;
  modify httpResponsesR (Some newResponse) (copy_rest old t) ;;;
  alloc responsesR {| resp_inner := Some newResponse |}.

(** ** Channels and goroutines *)

(** [make] of a channel of [Result] pointers. *)
Definition make_chan : M nat :=
  alloc chansR {| closed := false; handed := [] |}.

(** [c <- v] on an unbuffered channel whose receiver takes the value: the
    hand-over is recorded on the channel.  Sending on a closed channel
    panics. *)
Definition chan_send (c : nat) (v : ptr) : M unit :=
  λ w, match chans w !! c with
       | None => (Panic, w)
       | Some ch =>
           if closed ch then (Panic, w)
           else (Ok tt,
                 set_chans (λ l, <[c := {| closed := false;
                                           handed := handed ch ++ [v] |}]> l) w)
       end.

(** [close(c)]: closing a closed channel panics. *)
Definition chan_close (c : nat) : M unit :=
  λ w, match chans w !! c with
       | None => (Panic, w)
       | Some ch =>
           if closed ch then (Panic, w)
           else (Ok tt,
                 set_chans (λ l, <[c := {| closed := true;
                                           handed := handed ch |}]> l) w)
       end.

(** [go f()]: one more goroutine. *)
Definition spawn (g : Goroutine) : M unit :=
  λ w, (Ok tt, set_goroutines (λ l, l ++ [g]) w).

(** ** The plugin broker *)

Definition with_Request (req : ptr) (r : Result) : Result :=
  {| Request_ := req; Response_ := Response_ r; Payload := Payload r;
     Location := Location r; FieldName := FieldName r;
     TimeElapsed := TimeElapsed r |}.

Definition with_Response (resp : ptr) (r : Result) : Result :=
  {| Request_ := Request_ r; Response_ := resp; Payload := Payload r;
     Location := Location r; FieldName := FieldName r;
     TimeElapsed := TimeElapsed r |}.

(** What the goroutines of the plugins do to the store while [SendResult]
    runs: [act k] is applied once the [k]-th plugin has taken its delivery.
    A plugin holds the pointer it was sent, so it can reach and change what
    the [Result] refers to. *)
Definition Interference := nat → World → World.

Definition quiet : Interference := λ _ w, w.

Definition interfere (act : Interference) (k : nat) : M unit :=
  λ w, (Ok tt, act k w).

(** The two clones at the head of the loop body of [SendResult]. *)
Definition clone_pair (result : ptr) : M (nat * nat) :=
  res <- load resultsR result ;;
  req <- Request_CloneBody (Request_ res) Background ;;
  res' <- load resultsR result ;;
  resp <- Response_CloneBody (Response_ res') ;;
  ret (req, resp).

(** The rest of the loop body: the two assignments and the send. *)
Definition deliver (plugin : pluginInfo) (result : ptr) (cl : nat * nat) : M unit :=
  modify resultsR result (with_Request (Some cl.1)) ;;;
  modify resultsR result (with_Response (Some cl.2)) ;;;
  chan_send (Input plugin) result.

(** The loop of [SendResult] over [p.plugins], from the plugin of index [k]
    on. *)
Fixpoint SendResult_loop (act : Interference) (k : nat)
    (ps : list pluginInfo) (result : ptr) : M unit :=
  match ps with
  | [] => ret tt
  | plugin :: rest =>
      cl <- clone_pair result ;;
      deliver plugin result cl ;;;
      interfere act k ;;;
      SendResult_loop act (S k) rest result
  end.

(** [SendResult(result)] on the broker [p], run next to
    plugins that act as [act] says. *)
Definition SendResult_with (act : Interference) (p result : ptr) : M unit :=
  b <- load brokersR p ;;
  SendResult_loop act 0 (plugins b) result.

(** [SendResult] with no plugin touching the store meanwhile. *)
Definition SendResult (p result : ptr) : M unit :=
  SendResult_with quiet p result.

Fixpoint close_all (ps : list pluginInfo) : M unit :=
  match ps with
  | [] => ret tt
  | plugin :: rest => chan_close (Input plugin) ;;; close_all rest
  end.

(** [SignalDone()] on the broker [p]. *)
Definition SignalDone (p : ptr) : M unit :=
  b <- load brokersR p ;;
  close_all (plugins b).

(** [Wait()] on the broker [p]: [sync.WaitGroup.Wait] returns when the
    counter is zero and does not return while it is not. *)
Definition Wait (p : ptr) : M unit :=
  b <- load brokersR p ;;
  if waitGroup b =? 0 then ret tt else block.

(** [add(plugin)] on the broker [p]. *)
Definition add (p : ptr) (plugin : pluginInfo) : M unit :=
  modify brokersR p
    (λ b, {| plugins := plugins b ++ [plugin]; waitGroup := waitGroup b |}) ;;;
  modify brokersR p
    (λ b, {| plugins := plugins b; waitGroup := waitGroup b + 1 |}).

(** [run(plugin, results)] on the broker [p]. *)
Definition run (p : ptr) (plugin : pluginInfo) (results : nat) : M unit :=
  spawn {| g_listener := plugin_Listener plugin; g_results := results;
           g_broker := p; g_phase := Listening |}.

(** ** The plugin loader *)

(** A pointer to a [log.Logger]. *)
Record Logger := MkLogger { logger_id : nat }.

(** What a module exports under a name: a function of the type of
    [InitializerFunc], or something of another type. *)
Inductive Symbol :=
  | SymInitializer (new : Logger → Listener + error)
  | SymOther.

(** A loadable module: its exported symbols. *)
Record GoPlugin := MkGoPlugin { exports : string → option Symbol }.

(** The modules on the file system: [None] where [plugin.Open] fails. *)
Definition PluginFiles := string → option GoPlugin.

Definition open_error (path : string) : error :=
  String.append "plugin.Open: " path.
Definition lookup_error (name : string) : error :=
  String.append "plugin: symbol not found: " name.

(** [plugin.Open(path)]. *)
Definition plugin_Open (fs : PluginFiles) (path : string) : M GoPlugin :=
  match fs path with
  | Some plg => ret plg
  | None => throw (open_error path)
  end.

(** [plg.Lookup(name)]. *)
Definition Lookup (plg : GoPlugin) (name : string) : M Symbol :=
  match exports plg name with
  | Some s => ret s
  | None => throw (lookup_error name)
  end.

(** The type assertion of line 106 to the function type of
    [InitializerFunc]: it panics on a symbol of another type. *)
Definition assert_initializer (s : Symbol) : M (Logger → Listener + error) :=
  match s with
  | SymInitializer f => ret f
  | SymOther => panic
  end.

(** A call of the initializer. *)
Definition call_initializer (f : Logger → Listener + error) (logger : Logger)
    : M Listener :=
  match f logger with
  | inl l => ret l
  | inr e => throw e
  end.

(** The loop of [LoadPlugins] over [paths]. *)
Fixpoint LoadPlugins_loop (fs : PluginFiles) (logger : Logger)
    (broker : ptr) (paths : list string) : M unit :=
  match paths with
  | [] => ret tt
  | path :: rest =>
      plg <- plugin_Open fs path ;;
      symbol <- Lookup plg "New" ;;
      initializer <- assert_initializer symbol ;;
      httpfuzzListener <- call_initializer initializer logger ;;
      input <- make_chan ;;
      let httpfuzzPlugin :=
        {| Input := input; plugin_Listener := httpfuzzListener |} in
      add broker httpfuzzPlugin ;;;
      run broker httpfuzzPlugin input ;;;
      LoadPlugins_loop fs logger broker rest
  end.

(** [LoadPlugins(logger, paths)]: [Ok] carries the broker, [Fail] is the
    non-[nil] error next to a [nil] broker. *)
Definition LoadPlugins (fs : PluginFiles) (logger : Logger)
    (paths : list string) : M nat :=
  broker <- alloc brokersR {| plugins := []; waitGroup := 0 |} ;;
  LoadPlugins_loop fs logger (Some broker) paths ;;;
  ret broker.

(** ** Reading the store *)

(** The object behind a pointer, if it points to one. *)
Definition deref {A} (l : list A) (p : ptr) : option A := p ≫= (l !!.).

(** A pointer is [nil] or points into the region. *)
Definition valid {A} (l : list A) (p : ptr) : Prop :=
  match p with
  | None => True
  | Some i => (i < length l)%nat
  end.

(** The [http.Request] behind the wrapper [r], and the [http.Response]
    behind the wrapper [r]. *)
Definition Request_view (w : World) (r : nat) : option HttpRequest :=
  rw ← requests w !! r; deref (httpRequests w) (req_inner rw).

Definition Response_view (w : World) (r : nat) : option HttpResponse :=
  rw ← responses w !! r; deref (httpResponses w) (resp_inner rw).

(** What [ioutil.ReadAll] would return for the body [b]: its bytes, if there
    is a body and it can be read to the end. *)
Definition body_bytes (w : World) (b : ptr) : option (list byte) :=
  s ← deref (streams w) b;
  match fault s with
  | None => Some (pending s)
  | Some _ => None
  end.

Definition Request_bytes (w : World) (r : nat) : option (list byte) :=
  rq ← Request_view w r; body_bytes w (rq_Body rq).

Definition Response_bytes (w : World) (r : nat) : option (list byte) :=
  rs ← Response_view w r; body_bytes w (rs_Body rs).



(** The metadata of the [Result] behind [p]. *)
Definition Result_meta (w : World) (p : nat) : option (string * string * string * Z) :=
  (λ r, (Payload r, Location r, FieldName r, TimeElapsed r)) <$> results w !! p.

(** The pair of wrappers the [Result] behind [p] refers to. *)
Definition Result_refs (w : World) (p : nat) : option (ptr * ptr) :=
  (λ r, (Request_ r, Response_ r)) <$> results w !! p.

(** ** What the clones leave behind *)

(** Where [Header.Clone] puts the copy of [h], [n] being the next free place
    among the headers. *)
Definition cloned_ptr (n : nat) (h : ptr) : ptr :=
  match h with
  | None => None
  | Some _ => Some n
  end.

(** The map that [Header.Clone] adds for [h]: none for [nil]. *)
Definition header_copies (w : World) (h : ptr) : list Header :=
  option_list (deref (headers w) h).

(** The [http.Request] that [Clone] makes of [rq], with its body set to
    [body]. *)
Definition cloned_HttpRequest (w : World) (rq : HttpRequest) (ctx : Context)
    (body : ptr) : HttpRequest :=
  let nh := length (headers w) in
  {| rq_Method := rq_Method rq; rq_URL := rq_URL rq; rq_Proto := rq_Proto rq;
     rq_Header := cloned_ptr nh (rq_Header rq); rq_Body := body;
     rq_ContentLength := rq_ContentLength rq;
     rq_TransferEncoding := rq_TransferEncoding rq;
     rq_Close := rq_Close rq; rq_Host := rq_Host rq;
     rq_Trailer :=
       cloned_ptr (nh + length (header_copies w (rq_Header rq))) (rq_Trailer rq);
     rq_ctx := ctx |}.

(** The store after [Request.CloneBody] on the wrapper of the [http.Request]
    [rq] at [i]; [s] is the reader behind its body, if it has one. *)
Definition Request_CloneBody_world (w : World) (i : nat) (rq : HttpRequest)
    (s : Stream) (ctx : Context) : World :=
  let ns := length (streams w) in
  let hs := headers w ++ header_copies w (rq_Header rq)
                      ++ header_copies w (rq_Trailer rq) in
  let rs := requests w ++ [MkRequest (Some (length (httpRequests w)))] in
  match rq_Body rq with
  | None =>
      MkWorld (streams w) hs
        (httpRequests w ++ [cloned_HttpRequest w rq ctx None])
        (httpResponses w) rs (responses w) (results w) (chans w) (brokers w)
        (goroutines w)
  | Some b =>
      MkWorld
        (<[b := drained s]> (streams w)
           ++ [bytes_reader (pending s); bytes_reader (pending s)])
        hs
        (<[i := with_rq_Body (Some ns) rq]> (httpRequests w)
           ++ [cloned_HttpRequest w rq ctx (Some (S ns))])
        (httpResponses w) rs (responses w) (results w) (chans w) (brokers w)
        (goroutines w)
  end.

(** The [http.Response] that [Response.CloneBody] makes of [rs]. *)
Definition cloned_HttpResponse (w : World) (rs : HttpResponse) : HttpResponse :=
  let nh := length (headers w) in
  copy_rest rs
    (cloned_ptr (nh + length (header_copies w (rs_Header rs))) (rs_Trailer rs))
    (with_rs_Body (Some (S (length (streams w))))
       (with_rs_Header (cloned_ptr nh (rs_Header rs)) zero_HttpResponse)).

(** The store after [Response.CloneBody] on the wrapper of the
    [http.Response] [rs] at [i], whose body is the reader [s] at [b]. *)
Definition Response_CloneBody_world (w : World) (i b : nat)
    (rs : HttpResponse) (s : Stream) : World :=
  MkWorld
    (<[b := drained s]> (streams w)
       ++ [bytes_reader (pending s); bytes_reader (pending s)])
    (headers w ++ header_copies w (rs_Header rs)
               ++ header_copies w (rs_Trailer rs))
    (httpRequests w)
    (<[i := with_rs_Body (Some (length (streams w))) rs]> (httpResponses w)
       ++ [cloned_HttpResponse w rs])
    (requests w)
    (responses w ++ [MkResponse (Some (length (httpResponses w)))])
    (results w) (chans w) (brokers w) (goroutines w).


(** ** Relations between the store before and after an operation *)

(** Whatever the outcome of [m], the store it leaves is [R]-related to the
    store it found. *)
Definition keeps (R : World → World → Prop) {A} (m : M A) : Prop :=
  ∀ w, R w (m w).2.

Definition same {X} (f : World → X) : World → World → Prop :=
  λ w w', f w' = f w.

Definition grows {X} (f : World → list X) : World → World → Prop :=
  λ w w', (length (f w) ≤ length (f w'))%nat.



(** ** A small store to run the code on *)

(** A response with the body ["xyz"], sent chunked, to a request with the
    body ["abc"]; a second request without a body; one [Result] for the
    pair. *)
Definition ex_request : HttpRequest :=
  {| rq_Method := "POST"; rq_URL := "/login"; rq_Proto := "HTTP/1.1";
     rq_Header := Some 0%nat; rq_Body := Some 0%nat; rq_ContentLength := 3;
     rq_TransferEncoding := []; rq_Close := false; rq_Host := "example.org";
     rq_Trailer := None; rq_ctx := Background |}.

Definition ex_request_no_body : HttpRequest :=
  {| rq_Method := "GET"; rq_URL := "/"; rq_Proto := "HTTP/1.1";
     rq_Header := Some 0%nat; rq_Body := None; rq_ContentLength := 0;
     rq_TransferEncoding := []; rq_Close := false; rq_Host := "example.org";
     rq_Trailer := None; rq_ctx := Background |}.

Definition ex_response : HttpResponse :=
  {| rs_Status := "200 OK"; rs_StatusCode := 200; rs_Proto := "HTTP/1.1";
     rs_ProtoMajor := 1; rs_ProtoMinor := 1; rs_Header := Some 1%nat;
     rs_Body := Some 1%nat; rs_ContentLength := -1;
     rs_TransferEncoding := ["chunked"]; rs_Close := false;
     rs_Uncompressed := false; rs_Trailer := None; rs_Request := Some 0%nat;
     rs_TLS := None |}.

Definition ex_world : World :=
  {| streams := [bytes_reader ["a"; "b"; "c"]%byte;
                 bytes_reader ["x"; "y"; "z"]%byte];
     headers := [ {[ "Accept" := ["*/*"] ]}; {[ "Server" := ["nginx"] ]} ];
     httpRequests := [ex_request; ex_request_no_body];
     httpResponses := [ex_response];
     requests := [MkRequest (Some 0%nat); MkRequest (Some 1%nat)];
     responses := [MkResponse (Some 0%nat)];
     results := [ {| Request_ := Some 0%nat; Response_ := Some 0%nat;
                     Payload := "' OR 1=1"; Location := "body";
                     FieldName := "user"; TimeElapsed := 1500 |} ];
     chans := []; brokers := []; goroutines := [] |}.

(** Modules on the file system: [a.so] to [e.so] export a working [New],
    [nosym.so] exports nothing, [failing.so] exports a [New] that returns an
    error, [wrongtype.so] exports a [New] of another type; nothing else can
    be opened. *)
Definition ex_module (id : nat) : GoPlugin :=
  {| exports := λ name,
       if decide (name = "New")
       then Some (SymInitializer (λ _, inl (MkListener id)))
       else None |}.

Definition ex_files : PluginFiles := λ path,
  if decide (path = "a.so") then Some (ex_module 1)
  else if decide (path = "b.so") then Some (ex_module 2)
  else if decide (path = "c.so") then Some (ex_module 3)
  else if decide (path = "d.so") then Some (ex_module 4)
  else if decide (path = "e.so") then Some (ex_module 5)
  else if decide (path = "nosym.so") then Some {| exports := λ _, None |}
  else if decide (path = "failing.so") then
    Some {| exports := λ _, Some (SymInitializer (λ _, inr "no config")) |}
  else if decide (path = "wrongtype.so") then
    Some {| exports := λ _, Some SymOther |}
  else None.

Definition ex_logger : Logger := {| logger_id := 0 |}.

(** ** Runs of the broker *)

(** The metadata of all [Result]s, in the order of the store. *)
Definition Results_meta (w : World) : list (string * string * string * Z) :=
  (λ r, (Payload r, Location r, FieldName r, TimeElapsed r)) <$> results w.

(** A sequence of [SendResult] calls on the broker [p], one per element of
    [rs], whatever each call returns. *)
Fixpoint SendResults (p : ptr) (rs : list ptr) (w : World) : World :=
  match rs with
  | [] => w
  | r :: rs' => SendResults p rs' (SendResult p r w).2
  end.

(** How many of the plugins [ps] listen on the channel [c]. *)
Definition deliveries (ps : list pluginInfo) (c : nat) : nat :=
  length (filter (λ pl, Input pl = c) ps).

(** A channel after [n] more hand-overs of [v]. *)
Definition handed_more (n : nat) (v : ptr) (ch : Chan) : Chan :=
  {| closed := closed ch; handed := handed ch ++ replicate n v |}.

(** What a plugin may do with the [Result] it has been handed:
    [result.Request.Body = r] for a reader [r] that fails with [e]. *)
Definition break_Request_Body (result : ptr) (e : error) : M unit :=
  res <- load resultsR result ;;
  rw <- load requestsR (Request_ res) ;;
  b <- alloc streamsR {| pending := []; fault := Some e |} ;;
  modify httpRequestsR (req_inner rw) (with_rq_Body (Some b)).

(** The plugin of index 1 does so to the [Result] at 0 once it has taken its
    delivery; the other plugins leave the store alone. *)
Definition ex_act : Interference := λ k w,
  if (k =? 1)%nat
  then (break_Request_Body (Some 0%nat) "connection reset" w).2
  else w.

(** [ex_world] after [LoadPlugins] of five working modules. *)
Definition ex_paths5 : list string := ["a.so"; "b.so"; "c.so"; "d.so"; "e.so"].

Definition ex_world5 : World :=
  (LoadPlugins ex_files ex_logger ex_paths5 ex_world).2.

(** The broker that [LoadPlugins] has made in [ex_world5]. *)
Definition ex_broker5 : PluginBroker :=
  {| plugins := [ {| Input := 0; plugin_Listener := MkListener 1 |};
                  {| Input := 1; plugin_Listener := MkListener 2 |};
                  {| Input := 2; plugin_Listener := MkListener 3 |};
                  {| Input := 3; plugin_Listener := MkListener 4 |};
                  {| Input := 4; plugin_Listener := MkListener 5 |} ];
     waitGroup := 5 |}.

(** ** Statements of the specification that the code does not meet *)

(** C1 as stated: after a [SendResult] that has returned [nil] on a broker
    with plugins, the [Result] refers to the pair it referred to before. *)
Definition restores_original : Prop :=
  ∀ (w w' : World) (p r : nat) (b : PluginBroker) (refs : ptr * ptr),
    brokers w !! p = Some b → plugins b ≠ [] →
    Result_refs w r = Some refs →
    SendResult (Some p) (Some r) w = (Ok tt, w') →
    Result_refs w' r = Some refs.

(** ** What a plugin does with its delivery *)

(** The last pointer handed over on the channel [c]. *)
Definition received (w : World) (c : nat) : ptr :=
  default None (ch ← chans w !! c; last (handed ch)).

(** [res.Request.Header] and [res.Request.Body] for a [Result] pointer
    [res]. *)
Definition Result_Request_Header (w : World) (res : ptr) : ptr :=
  default None
    (r ← deref (results w) res; rw ← deref (requests w) (Request_ r);
     rq ← deref (httpRequests w) (req_inner rw); Some (rq_Header rq)).

Definition Result_Request_Body (w : World) (res : ptr) : ptr :=
  default None
    (r ← deref (results w) res; rw ← deref (requests w) (Request_ r);
     rq ← deref (httpRequests w) (req_inner rw); Some (rq_Body rq)).

(** [h.Set(key, value)], keys taken as canonical; a [nil] map panics. *)
Definition Header_Set (h : ptr) (key value : string) : M unit :=
  modify headersR h (λ m, <[key := [value]]> m).

(** [h.Get(key)]: the first value, if there is one. *)
Definition Header_Get (w : World) (h : ptr) (key : string) : option string :=
  m ← deref (headers w) h; vs ← m !! key; head vs.

(** [ex_world] after [LoadPlugins] of two working modules, and what
    [SendResult] of the [Result] at 0 makes of it. *)
Definition ex_world2 : World :=
  (LoadPlugins ex_files ex_logger ["a.so"; "b.so"] ex_world).2.

Definition ex_sent2 : World :=
  (SendResult (Some 0%nat) (Some 0%nat) ex_world2).2.

(** ** What the loader makes *)

(** What the first four steps of the loop body of [LoadPlugins] come to for
    one path: they do not touch the store. *)
Definition load_listener (fs : PluginFiles) (logger : Logger) (path : string)
    : Res Listener :=
  match fs path with
  | None => Fail (open_error path)
  | Some plg =>
      match exports plg "New" with
      | None => Fail (lookup_error "New")
      | Some SymOther => Panic
      | Some (SymInitializer new) =>
          match new logger with
          | inl l => Ok l
          | inr e => Fail e
          end
      end
  end.

(** The same for the paths in order, up to the first that does not load. *)
Fixpoint load_all (fs : PluginFiles) (logger : Logger) (paths : list string)
    : Res (list Listener) :=
  match paths with
  | [] => Ok []
  | path :: rest =>
      match load_listener fs logger path with
      | Ok l =>
          match load_all fs logger rest with
          | Ok ls => Ok (l :: ls)
          | Fail e => Fail e
          | Panic => Panic
          | Blocked => Blocked
          end
      | Fail e => Fail e
      | Panic => Panic
      | Blocked => Blocked
      end
  end.

(** The listeners of the paths before the first that does not load. *)
Fixpoint loaded_before (fs : PluginFiles) (logger : Logger)
    (paths : list string) : list Listener :=
  match paths with
  | [] => []
  | path :: rest =>
      match load_listener fs logger path with
      | Ok l => l :: loaded_before fs logger rest
      | _ => []
      end
  end.

(** The plugins for the listeners [ls] in order, on the channels from [c]
    on. *)
Fixpoint register_at (c : nat) (ls : list Listener) : list pluginInfo :=
  match ls with
  | [] => []
  | l :: ls' => {| Input := c; plugin_Listener := l |} :: register_at (S c) ls'
  end.

(** The goroutines that [run] starts for the plugins [ps] of the broker
    [p]. *)
Definition workers_for (p : ptr) (ps : list pluginInfo) : list Goroutine :=
  (λ pl, {| g_listener := plugin_Listener pl; g_results := Input pl;
            g_broker := p; g_phase := Listening |}) <$> ps.

Definition new_chan : Chan := {| closed := false; handed := [] |}.

(** The store after the loop of [LoadPlugins] has registered the listeners
    [ls] with the broker [b] at [p]. *)
Definition LoadPlugins_world (w : World) (p : nat) (b : PluginBroker)
    (ls : list Listener) : World :=
  let new := register_at (length (chans w)) ls in
  MkWorld (streams w) (headers w) (httpRequests w) (httpResponses w)
    (requests w) (responses w) (results w)
    (chans w ++ replicate (length ls) new_chan)
    (<[p := {| plugins := plugins b ++ new;
               waitGroup := waitGroup b + Z.of_nat (length ls) |}]> (brokers w))
    (goroutines w ++ workers_for (Some p) new).

(** An outcome without its value. *)
Definition outcome_of {A} (r : Res A) : Res unit :=
  match r with
  | Ok _ => Ok tt
  | Fail e => Fail e
  | Panic => Panic
  | Blocked => Blocked
  end.

(** ** The goroutines of the plugins *)

(** Modelled from the spec: the [Listen] method of a plugin, whose code is
    not part of the repository.  The spec has it that [Listen] "consumes
    Results from the given readable stream until it is closed, then
    returns".  [returns l ch] tells whether [Listen] of the listener [l]
    returns when its channel is in the state [ch]; a listener honours the
    contract if it returns once its channel is closed. *)
Definition honours_contract (returns : Listener → Chan → bool) : Prop :=
  ∀ l ch, closed ch = true → returns l ch = true.

(** The listeners that return when their channel is closed, and only
    then. *)
Definition until_closed : Listener → Chan → bool := λ _ ch, closed ch.

(** [sync.WaitGroup.Done]: the counter goes down by one; it panics if that
    makes it negative. *)
Definition Done (p : ptr) : M unit :=
  b <- load brokersR p ;;
  if waitGroup b - 1 <? 0 then panic
  else modify brokersR p
         (λ b, {| plugins := plugins b; waitGroup := waitGroup b - 1 |}).

Definition with_phase (ph : Phase) (g : Goroutine) : Goroutine :=
  {| g_listener := g_listener g; g_results := g_results g;
     g_broker := g_broker g; g_phase := ph |}.

(** The rest of the goroutine of index [i], which [run] has started as
    [plugin.Listen(results); p.waitGroup.Done()]: [Listen] returns and
    [Done] is called.  It is [Blocked] while [Listen] does not return, and
    once the goroutine is over. *)
Definition worker (returns : Listener → Chan → bool) (i : nat) : M unit :=
  g <- load goroutinesR (Some i) ;;
  match g_phase g with
  | Returned => block
  | Listening =>
      ch <- load chansR (Some (g_results g)) ;;
      if returns (g_listener g) ch
      then modify goroutinesR (Some i) (with_phase Returned) ;;;
           Done (g_broker g)
      else block
  end.

(** How many of the goroutines are still in [Listen]. *)
Fixpoint listening (gs : list Goroutine) : nat :=
  match gs with
  | [] => 0
  | g :: gs' =>
      match g_phase g with
      | Listening => S (listening gs')
      | Returned => listening gs'
      end
  end.

(** The plugins leave the broker, the goroutines and the channels alone. *)
Definition gentle (act : Interference) : Prop :=
  ∀ k w, brokers (act k w) = brokers w
         ∧ goroutines (act k w) = goroutines w
         ∧ chans (act k w) = chans w.

(** The stores that a program reaches which loads its plugins first, with
    no goroutine of a plugin running yet, and then calls [SendResult] and
    [SignalDone] on the broker [p] it got, in any order and number, while
    the goroutines of the plugins run to their end whenever they can. *)
Inductive reachable (returns : Listener → Chan → bool) (p : nat)
    : World → Prop :=
  | reach_LoadPlugins fs logger paths w w' :
      goroutines w = [] →
      LoadPlugins fs logger paths w = (Ok p, w') →
      reachable returns p w'
  | reach_SendResult act result w o w' :
      reachable returns p w → gentle act →
      SendResult_with act (Some p) result w = (o, w') →
      reachable returns p w'
  | reach_SignalDone w o w' :
      reachable returns p w →
      SignalDone (Some p) w = (o, w') →
      reachable returns p w'
  | reach_worker i w w' :
      reachable returns p w →
      worker returns i w = (Ok tt, w') →
      reachable returns p w'.

(** The goroutines are those of the plugins of the broker [p], one each and
    in their order, and the wait group counts those still in [Listen]. *)
Definition broker_inv (p : nat) (w : World) : Prop :=
  ∃ b, brokers w !! p = Some b
       ∧ Forall2 (λ pl g, g_listener g = plugin_Listener pl
                          ∧ g_results g = Input pl ∧ g_broker g = Some p)
           (plugins b) (goroutines w)
       ∧ waitGroup b = Z.of_nat (listening (goroutines w))
       ∧ Forall (λ pl, (Input pl < length (chans w))%nat) (plugins b)
       ∧ NoDup (Input <$> plugins b).

(** Every channel of a plugin of the broker [p] is open. *)
Definition all_open (p : nat) (w : World) : Prop :=
  ∀ b pl, brokers w !! p = Some b → pl ∈ plugins b →
          ∃ ch, chans w !! Input pl = Some ch ∧ closed ch = false.

(** Every channel of a plugin of the broker [p] is closed. *)
Definition all_closed (p : nat) (w : World) : Prop :=
  ∀ b pl, brokers w !! p = Some b → pl ∈ plugins b →
          ∃ ch, chans w !! Input pl = Some ch ∧ closed ch = true.

(** The goroutines of the indices [ids] run to their end, one after the
    other. *)
Fixpoint run_workers (returns : Listener → Chan → bool) (ids : list nat)
    : M unit :=
  match ids with
  | [] => ret tt
  | i :: ids' => worker returns i ;;; run_workers returns ids'
  end.

(** The stores of [reachable] that come before any [SignalDone]. *)
Inductive dispatching (returns : Listener → Chan → bool) (p : nat)
    : World → Prop :=
  | disp_LoadPlugins fs logger paths w w' :
      goroutines w = [] →
      LoadPlugins fs logger paths w = (Ok p, w') →
      dispatching returns p w'
  | disp_SendResult act result w o w' :
      dispatching returns p w → gentle act →
      SendResult_with act (Some p) result w = (o, w') →
      dispatching returns p w'
  | disp_worker i w w' :
      dispatching returns p w →
      worker returns i w = (Ok tt, w') →
      dispatching returns p w'.

(** Which channels are closed, in the order of the store. *)
Definition closed_flags (w : World) : list bool := closed <$> chans w.

(** ** [Client.Do] *)

(** [net/http]'s client, as far as [Do] of [http.go] uses it: its own
    [Do], which is given a pointer to an [http.Request] and returns a
    pointer to an [http.Response] and an [error], either of which may be
    [nil]; what it does to the store meanwhile is its own business. *)
Record HttpClient := MkHttpClient {
  http_Do : ptr → M (ptr * option error) }.

(** The pair of results of a call of that [Do]; a call that ends in
    [Fail e] has returned [nil] and [e]. *)
Definition http_Client_Do (hc : HttpClient) (r : ptr) : M (ptr * option error) :=
  λ w, match http_Do hc r w with
       | (Fail e, w') => (Ok (None, Some e), w')
       | o => o
       end.

(** [type Client struct { *http.Client }]. *)
Record Client := MkClient { client_inner : HttpClient }.

(** [Do(req)] on the client [c], lines 16 to 19 of [http.go]: the response
    goes into a new wrapper, the error is handed on next to it. *)
Definition Client_Do (c : option Client) (req : ptr) : M (nat * option error) :=
  match c with
  | None => panic
  | Some cl =>
      rw <- load requestsR req ;;
      re <- http_Client_Do (client_inner cl) (req_inner rw) ;;
      resp <- alloc responsesR {| resp_inner := re.1 |} ;;
      ret (resp, re.2)
  end.

(** A client whose server cannot be reached. *)
Definition ex_refused : HttpClient :=
  {| http_Do := λ _, throw "connection refused" |}.


(** ** What [SendResult] needs of a [Result] *)

(** The request behind [r] can be cloned: its header pointers point to
    maps, and it has no body or a body that can be read to its end. *)
Definition Request_clonable (w : World) (r : nat) : Prop :=
  ∃ rq, Request_view w r = Some rq
        ∧ valid (headers w) (rq_Header rq) ∧ valid (headers w) (rq_Trailer rq)
        ∧ (rq_Body rq = None ∨ is_Some (body_bytes w (rq_Body rq))).

(** The response behind [q] can be cloned: it has a body that can be read
    to its end. *)
Definition Response_clonable (w : World) (q : nat) : Prop :=
  ∃ rs, Response_view w q = Some rs
        ∧ valid (headers w) (rs_Header rs) ∧ valid (headers w) (rs_Trailer rs)
        ∧ is_Some (body_bytes w (rs_Body rs)).

(** Both can be cloned, and their bodies are two readers. *)
Definition pair_clonable (w : World) (r q : nat) : Prop :=
  Request_clonable w r ∧ Response_clonable w q
  ∧ ∀ rq rs, Request_view w r = Some rq → Response_view w q = Some rs →
             rq_Body rq ≠ rs_Body rs.

(** The context of the request behind [r]. *)
Definition Request_ctx (w : World) (r : nat) : option Context :=
  rq_ctx <$> Request_view w r.

(** A producer that sends the results [rs] one after the other and stops
    at the first call that does not return [nil]. *)
Fixpoint SendResult_each (p : ptr) (rs : list ptr) : M unit :=
  match rs with
  | [] => ret tt
  | r :: rs' => SendResult p r ;;; SendResult_each p rs'
  end.

(** A channel after the hand-overs [vs]. *)
Definition handed_all (vs : list ptr) (ch : Chan) : Chan :=
  {| closed := closed ch; handed := handed ch ++ vs |}.

(** ** [plugin.go]: the broker that does not clone *)

(** [plugin.go] has the broker as it was before [SendResult] cloned: its
    [Plugin] is the [pluginInfo] of above under another name, and [run],
    [Wait], [add], [SignalDone] and [LoadPlugins] are as above.  Its
    [SendResult], lines 44 to 48, returns nothing. *)
Module plugin_go.

Fixpoint SendResult_loop (ps : list pluginInfo) (result : ptr) : M unit :=
  match ps with
  | [] => ret tt
  | plugin :: rest =>
      chan_send (Input plugin) result ;;;
      SendResult_loop rest result
  end.

Definition SendResult (p result : ptr) : M unit :=
  b <- load brokersR p ;;
  SendResult_loop (plugins b) result.

End plugin_go.

(** The store without its channels. *)
Definition but_chans (w : World) : World :=
  set_chans (λ _, []) w.

(** [ex_world5] with one more [Result], for the request without a body,
    which has had no response. *)
Definition ex_world_no_response : World :=
  set_results
    (λ l, l ++ [ {| Request_ := Some 1%nat; Response_ := None;
                    Payload := "<script>"; Location := "query";
                    FieldName := "q"; TimeElapsed := 20 |} ])
    ex_world5.

(** ** The pair that the producer has put into the [Result] *)







(** What has been handed over on the channels, in the order of the
    store. *)
Definition handed_logs (w : World) : list (list ptr) := handed <$> chans w.

(** * Properties *)

(** ** The monad *)

Lemma bind_Ok {A B} (m : M A) (k : A → M B) w a w1 :
  m w = (Ok a, w1) → bind m k w = k a w1.
Proof. unfold bind. by intros ->. Qed.

Lemma bind_Fail {A B} (m : M A) (k : A → M B) w e w1 :
  m w = (Fail e, w1) → bind m k w = (Fail e, w1).
Proof. unfold bind. by intros ->. Qed.

Lemma bind_Ok_inv {A B} (m : M A) (k : A → M B) w b w' :
  bind m k w = (Ok b, w') → ∃ a w1, m w = (Ok a, w1) ∧ k a w1 = (Ok b, w').
Proof.
  unfold bind. destruct (m w) as [[a| | |] w1]; intros H; try discriminate.
  eauto.
Qed.

Lemma bind_assoc {A B C} (m : M A) (k : A → M B) (k' : B → M C) w :
  bind (bind m k) k' w = bind m (λ a, bind (k a) k') w.
Proof. unfold bind. by destruct (m w) as [[a| | |] w1]. Qed.

(** ** Relations kept by every step *)

#[local] Instance same_preorder {X} (f : World → X) : PreOrder (same f).
Proof. split; unfold same; [by intros ? | by intros ??? -> ->]. Qed.

#[local] Instance grows_preorder {X} (f : World → list X) : PreOrder (grows f).
Proof. split; unfold grows; [intros ?; lia | intros ???; lia]. Qed.

Section keeps.
Context (R : World → World → Prop) `{!PreOrder R}.

Lemma keeps_ret {A} (a : A) : keeps R (ret a).
Proof. intros w. simpl. reflexivity. Qed.

Lemma keeps_throw {A} e : keeps R (@throw A e).
Proof. intros w. simpl. reflexivity. Qed.

Lemma keeps_panic {A} : keeps R (@panic A).
Proof. intros w. simpl. reflexivity. Qed.

Lemma keeps_block {A} : keeps R (@block A).
Proof. intros w. simpl. reflexivity. Qed.

Lemma keeps_load {A} (G : Region A) p : keeps R (load G p).
Proof. intros w. unfold load. repeat case_match; simpl; reflexivity. Qed.

Lemma keeps_bind {A B} (m : M A) (k : A → M B) :
  keeps R m → (∀ a, keeps R (k a)) → keeps R (bind m k).
Proof.
  intros Hm Hk w. unfold bind. specialize (Hm w).
  destruct (m w) as [[a| | |] w1]; simpl in *; try done.
  etrans; [exact Hm | apply Hk].
Qed.

Lemma keeps_alloc {A} (G : Region A) x :
  (∀ f w, R w (rset G f w)) → keeps R (alloc G x).
Proof. intros H w. apply H. Qed.

Lemma keeps_modify {A} (G : Region A) p f :
  (∀ g w, R w (rset G g w)) → keeps R (modify G p f).
Proof.
  intros H w. unfold modify. repeat case_match; simpl; try reflexivity.
  apply H.
Qed.
End keeps.

(** One step of a frame proof: the shape of the operation decides. *)
Ltac keeps_tac :=
  repeat first
    [ apply keeps_ret; tc_solve
    | apply keeps_throw; tc_solve
    | apply keeps_panic; tc_solve
    | apply keeps_block; tc_solve
    | apply keeps_load; tc_solve
    | apply keeps_bind; try tc_solve; [ | intros ?]
    | apply keeps_alloc; try tc_solve; intros ? ?;
        first [ reflexivity | unfold grows; simpl; reflexivity ]
    | apply keeps_modify; try tc_solve; intros ? ?;
        first [ reflexivity | unfold grows; simpl; reflexivity ]
    | progress case_match ].

(** ** Lists as regions *)

Lemma lookup_snoc_new {A} (l : list A) x : (l ++ [x]) !! length l = Some x.
Proof. by rewrite lookup_app_r, Nat.sub_diag. Qed.

Lemma insert_snoc_new {A} (l : list A) n x y :
  n = length l → <[n := x]> (l ++ [y]) = l ++ [x].
Proof.
  intros ->. rewrite insert_app_r_alt by lia. by rewrite Nat.sub_diag.
Qed.

Lemma insert_snoc_old {A} (l : list A) i x y :
  (i < length l)%nat → <[i := x]> (l ++ [y]) = <[i := x]> l ++ [y].
Proof. intros. by rewrite insert_app_l. Qed.

(** Arithmetic on the lengths of regions. *)
Ltac len :=
  repeat match goal with
  | H : _ !! _ = Some _ |- _ => apply lookup_lt_Some in H
  end;
  simpl in *;
  repeat first [ rewrite length_app in * | rewrite length_insert in * ];
  simpl in *; lia.

(** A lookup in a region that has been appended to or updated. *)
Ltac look :=
  first
  [ rewrite lookup_snoc_new
  | rewrite list_lookup_insert_eq by len
  | rewrite list_lookup_insert_ne by len
  | rewrite lookup_app_l by len
  | match goal with
    | |- context [ (?l ++ [?x]) !! ?i ] =>
        replace i with (length l) by len; rewrite lookup_snoc_new
    end ].

(** Runs an operation on a store whose lookups are known. *)
Ltac run :=
  unfold Request_CloneBody, Response_CloneBody, http_Request_Clone,
    Header_Clone, ReadAll, bind, load, alloc, modify, ret, throw, panic;
  repeat (simpl;
    match goal with
    | H : ?l !! ?i = Some _ |- context [ ?l !! ?i ] => rewrite H
    | H : ?x = Some _ |- context [ match ?x with _ => _ end ] => rewrite H
    | H : ?x = None |- context [ match ?x with _ => _ end ] => rewrite H
    | |- context [ _ !! _ ] => look
    end).

Ltac norm_lists :=
  repeat first
    [ rewrite insert_snoc_new by len
    | rewrite insert_snoc_old by len
    | rewrite <- app_assoc
    | rewrite app_nil_r ]; simpl.

Lemma World_ext (w w' : World) :
  streams w = streams w' → headers w = headers w' →
  httpRequests w = httpRequests w' → httpResponses w = httpResponses w' →
  requests w = requests w' → responses w = responses w' →
  results w = results w' → chans w = chans w' → brokers w = brokers w' →
  goroutines w = goroutines w' → w = w'.
Proof. destruct w, w'. simpl. by intros -> -> -> -> -> -> -> -> -> ->. Qed.

(** ** The clones as functions of the store *)

Lemma Request_CloneBody_eq w r rw i rq ctx s :
  requests w !! r = Some rw → req_inner rw = Some i →
  httpRequests w !! i = Some rq →
  valid (headers w) (rq_Header rq) → valid (headers w) (rq_Trailer rq) →
  deref (streams w) (rq_Body rq) = Some s ∨ rq_Body rq = None →
  fault s = None →
  Request_CloneBody (Some r) ctx w
  = (Ok (length (requests w)), Request_CloneBody_world w i rq s ctx).
Proof.
  intros Hr Hi Hrq Hh Ht Hb Hf.
  unfold Request_CloneBody_world, cloned_HttpRequest, header_copies.
  destruct (rq_Header rq) as [h|] eqn:Eh;
    [apply lookup_lt_is_Some_2 in Hh as [mh Hmh]|];
  (destruct (rq_Trailer rq) as [t|] eqn:Et;
    [apply lookup_lt_is_Some_2 in Ht as [mt Hmt]|]);
  (destruct (rq_Body rq) as [b|] eqn:Eb;
    [destruct Hb as [Hb|]; [|done]|clear Hb]).
  all: simpl in *.
  all: run.
  all: f_equal.
  all: apply World_ext; simpl; try reflexivity.
  all: unfold with_rq_Body; simpl; rewrite ?Eh, ?Et, ?Eb; simpl.
  all: norm_lists; rewrite ?length_app, ?length_insert; simpl;
    rewrite ?Nat.add_0_r, ?Nat.add_1_r; reflexivity.
Qed.

Lemma Request_CloneBody_fault w r rw i rq ctx b s e :
  requests w !! r = Some rw → req_inner rw = Some i →
  httpRequests w !! i = Some rq →
  valid (headers w) (rq_Header rq) → valid (headers w) (rq_Trailer rq) →
  rq_Body rq = Some b → streams w !! b = Some s → fault s = Some e →
  (Request_CloneBody (Some r) ctx w).1 = Fail e.
Proof.
  intros Hr Hi Hrq Hh Ht Eb Hb Hf.
  destruct (rq_Header rq) as [h|] eqn:Eh;
    [apply lookup_lt_is_Some_2 in Hh as [mh Hmh]|];
  (destruct (rq_Trailer rq) as [t|] eqn:Et;
    [apply lookup_lt_is_Some_2 in Ht as [mt Hmt]|]).
  all: simpl in *.
  all: run.
  all: reflexivity.
Qed.

Lemma Response_CloneBody_eq w r rw i rs b s :
  responses w !! r = Some rw → resp_inner rw = Some i →
  httpResponses w !! i = Some rs →
  valid (headers w) (rs_Header rs) → valid (headers w) (rs_Trailer rs) →
  rs_Body rs = Some b → streams w !! b = Some s → fault s = None →
  Response_CloneBody (Some r) w
  = (Ok (length (responses w)), Response_CloneBody_world w i b rs s).
Proof.
  intros Hr Hi Hrs Hh Ht Eb Hb Hf.
  unfold Response_CloneBody_world, cloned_HttpResponse, header_copies.
  destruct (rs_Header rs) as [h|] eqn:Eh;
    [apply lookup_lt_is_Some_2 in Hh as [mh Hmh]|];
  (destruct (rs_Trailer rs) as [t|] eqn:Et;
    [apply lookup_lt_is_Some_2 in Ht as [mt Hmt]|]).
  all: simpl in *.
  all: run.
  all: f_equal.
  all: apply World_ext; simpl; try reflexivity.
  all: unfold with_rs_Body, with_rs_Header, copy_rest;
    simpl; rewrite ?Eh, ?Et, ?Eb; simpl.
  all: norm_lists; rewrite ?length_app, ?length_insert; simpl;
    rewrite ?Nat.add_0_r, ?Nat.add_1_r; reflexivity.
Qed.



(** ** Views *)

Lemma Request_view_inv w r rq :
  Request_view w r = Some rq →
  ∃ rw i, requests w !! r = Some rw ∧ req_inner rw = Some i
          ∧ httpRequests w !! i = Some rq.
Proof.
  unfold Request_view, deref. intros H.
  destruct (requests w !! r) as [rw|]; [|done]. simpl in H.
  destruct (req_inner rw) as [i|] eqn:Ei; [|done]. simpl in H. eauto.
Qed.

Lemma Response_view_inv w r rs :
  Response_view w r = Some rs →
  ∃ rw i, responses w !! r = Some rw ∧ resp_inner rw = Some i
          ∧ httpResponses w !! i = Some rs.
Proof.
  unfold Response_view, deref. intros H.
  destruct (responses w !! r) as [rw|]; [|done]. simpl in H.
  destruct (resp_inner rw) as [i|] eqn:Ei; [|done]. simpl in H. eauto.
Qed.

Lemma body_bytes_inv w b bs :
  body_bytes w b = Some bs →
  ∃ l s, b = Some l ∧ streams w !! l = Some s ∧ fault s = None ∧ pending s = bs.
Proof.
  unfold body_bytes, deref. destruct b as [l|]; [|done]. simpl.
  destruct (streams w !! l) as [s|] eqn:Hs; [|done]. simpl.
  destruct (fault s) eqn:Ef; [done|]. intros [= <-]. by exists l, s.
Qed.

Lemma Request_bytes_intro w r rw i rq b s :
  requests w !! r = Some rw → req_inner rw = Some i →
  httpRequests w !! i = Some rq → rq_Body rq = Some b →
  streams w !! b = Some s → fault s = None →
  Request_bytes w r = Some (pending s).
Proof.
  intros Hr Hi Hrq Eb Hs Hf.
  unfold Request_bytes, Request_view, body_bytes. rewrite Hr. simpl.
  rewrite Hi. simpl. rewrite Hrq. simpl. rewrite Eb. simpl. rewrite Hs. simpl.
  by rewrite Hf.
Qed.

Lemma Response_bytes_intro w r rw i rs b s :
  responses w !! r = Some rw → resp_inner rw = Some i →
  httpResponses w !! i = Some rs → rs_Body rs = Some b →
  streams w !! b = Some s → fault s = None →
  Response_bytes w r = Some (pending s).
Proof.
  intros Hr Hi Hrs Eb Hs Hf.
  unfold Response_bytes, Response_view, body_bytes. rewrite Hr. simpl.
  rewrite Hi. simpl. rewrite Hrs. simpl. rewrite Eb. simpl. rewrite Hs. simpl.
  by rewrite Hf.
Qed.

(** ** Cloning again and again *)











(** ** [CloneBody] without a body *)



(** ** The metadata of a cloned response *)

Example go_copy_longer_dst : go_copy [1; 2; 3] [9; 8] = [9; 8; 3].
Proof. reflexivity. Qed.

Example go_copy_shorter_dst : go_copy [1] [9; 8] = [9].
Proof. reflexivity. Qed.

Lemma go_copy_length {A} (dst src : list A) :
  length (go_copy dst src) = length dst.
Proof.
  unfold go_copy. rewrite length_app, length_take, length_drop. lia.
Qed.

Lemma go_copy_nil {A} (src : list A) : go_copy [] src = [].
Proof. unfold go_copy. simpl. by rewrite drop_nil. Qed.

Lemma deref_cloned_ptr {A} (l ex : list A) (h : ptr) :
  valid l h →
  deref (l ++ option_list (deref l h) ++ ex) (cloned_ptr (length l) h)
  = deref l h.
Proof.
  destruct h as [i|]; simpl; [|done].
  intros Hi. apply lookup_lt_is_Some_2 in Hi as [x Hx].
  rewrite Hx. simpl. by rewrite lookup_app_r, Nat.sub_diag by lia.
Qed.

Lemma deref_cloned_ptr_2 {A} (l : list A) (h t : ptr) :
  valid l h → valid l t →
  deref (l ++ option_list (deref l h) ++ option_list (deref l t))
    (cloned_ptr (length l + length (option_list (deref l h))) t)
  = deref l t.
Proof.
  destruct t as [i|]; simpl; [|done].
  intros Hh Hi. apply lookup_lt_is_Some_2 in Hi as [x Hx].
  rewrite Hx. simpl. rewrite app_assoc.
  rewrite lookup_app_r by (rewrite length_app; lia).
  rewrite length_app. by rewrite Nat.sub_diag.
Qed.

(** What [Response.CloneBody] does with the fields other than the body, for
    every response it can clone: all are carried over, the header maps into
    maps of their own, except the [TransferEncoding], which is left
    empty. *)
Lemma Response_CloneBody_metadata (w : World) (q : nat) (rs : HttpResponse)
    (bs : list byte) :
  Response_view w q = Some rs →
  valid (headers w) (rs_Header rs) → valid (headers w) (rs_Trailer rs) →
  body_bytes w (rs_Body rs) = Some bs →
  ∃ w' cs,
    Response_CloneBody (Some q) w = (Ok (length (responses w)), w')
    ∧ Response_view w' (length (responses w)) = Some cs
    ∧ rs_Status cs = rs_Status rs ∧ rs_StatusCode cs = rs_StatusCode rs
    ∧ rs_Proto cs = rs_Proto rs ∧ rs_ProtoMajor cs = rs_ProtoMajor rs
    ∧ rs_ProtoMinor cs = rs_ProtoMinor rs
    ∧ rs_ContentLength cs = rs_ContentLength rs
    ∧ rs_Close cs = rs_Close rs ∧ rs_Uncompressed cs = rs_Uncompressed rs
    ∧ rs_Request cs = rs_Request rs ∧ rs_TLS cs = rs_TLS rs
    ∧ deref (headers w') (rs_Header cs) = deref (headers w) (rs_Header rs)
    ∧ deref (headers w') (rs_Trailer cs) = deref (headers w) (rs_Trailer rs)
    ∧ (∀ h, rs_Header cs = Some h → (length (headers w) ≤ h)%nat)
    ∧ (∀ t, rs_Trailer cs = Some t → (length (headers w) ≤ t)%nat)
    ∧ rs_TransferEncoding cs = [].
Proof.
  intros Hview Hh Ht Hbytes.
  apply body_bytes_inv in Hbytes as (b & s & Eb & Hs & Hf & <-).
  apply Response_view_inv in Hview as (rw & i & Hr & Hi & Hrs).
  exists (Response_CloneBody_world w i b rs s), (cloned_HttpResponse w rs).
  split; [by apply (Response_CloneBody_eq w q rw i rs b s)|].
  split.
  { unfold Response_view. simpl. rewrite lookup_snoc_new. simpl.
    rewrite lookup_app_r by (rewrite length_insert; lia).
    by rewrite length_insert, Nat.sub_diag. }
  repeat split; simpl.
  - apply deref_cloned_ptr. exact Hh.
  - apply deref_cloned_ptr_2; assumption.
  - destruct (rs_Header rs); simpl; [|done]. intros ? [= <-]. lia.
  - destruct (rs_Trailer rs); simpl; [|done]. intros ? [= <-]. lia.
  - apply go_copy_nil.
Qed.

(** C3, at the response of [ex_world], which was sent chunked: the clone
    that [Response.CloneBody] returns has an empty [TransferEncoding].  The
    [copy] of line 77 copies into the [nil] slice of the new response, that
    is, nothing. *)
Theorem Response_CloneBody_loses_TransferEncoding :
  ∃ w' cs,
    Response_CloneBody (Some 0%nat) ex_world = (Ok 1%nat, w')
    ∧ Response_view w' 1 = Some cs
    ∧ (rs_TransferEncoding <$> Response_view ex_world 0) = Some ["chunked"]
    ∧ rs_TransferEncoding cs = [].
Proof.
  destruct (Response_CloneBody_metadata ex_world 0 ex_response
              ["x"; "y"; "z"]%byte) as (w' & cs & Hrun & Hcs & H);
    [reflexivity | simpl; lia | exact I | reflexivity |].
  exists w', cs. split; [exact Hrun|]. split; [exact Hcs|].
  split; [reflexivity|]. apply H.
Qed.

(** ** What the steps of [SendResult] leave alone *)

Lemma keeps_chan_send (R : World → World → Prop) `{!PreOrder R} c v :
  (∀ g w, R w (set_chans g w)) → keeps R (chan_send c v).
Proof.
  intros H w. unfold chan_send. repeat case_match; simpl; try reflexivity.
  apply H.
Qed.

Lemma keeps_chan_close (R : World → World → Prop) `{!PreOrder R} c :
  (∀ g w, R w (set_chans g w)) → keeps R (chan_close c).
Proof.
  intros H w. unfold chan_close. repeat case_match; simpl; try reflexivity.
  apply H.
Qed.

Lemma keeps_alloc_requests x : keeps (grows requests) (alloc requestsR x).
Proof. intros w. unfold grows. simpl. rewrite length_app. lia. Qed.

Lemma keeps_alloc_responses x : keeps (grows responses) (alloc responsesR x).
Proof. intros w. unfold grows. simpl. rewrite length_app. lia. Qed.

Lemma keeps_modify_meta p f :
  (∀ r, (Payload (f r), Location (f r), FieldName (f r), TimeElapsed (f r))
        = (Payload r, Location r, FieldName r, TimeElapsed r)) →
  keeps (same Results_meta) (modify resultsR p f).
Proof.
  intros Hf w. unfold modify, same, Results_meta.
  destruct p as [l|]; [|done]. simpl.
  destruct (results w !! l) as [r|] eqn:Hr; [|done]. simpl.
  rewrite list_fmap_insert, Hf.
  apply list_insert_id. by rewrite list_lookup_fmap, Hr.
Qed.

(** Frame proofs for the operations of [http.go] and of the broker. *)
Ltac frame :=
  unfold clone_pair, deliver, Request_CloneBody, Response_CloneBody,
    http_Request_Clone, Header_Clone, ReadAll, make_chan;
  repeat first
    [ apply keeps_alloc_requests
    | apply keeps_alloc_responses
    | apply keeps_chan_send; try tc_solve; intros ? ?;
        first [ reflexivity | unfold grows; simpl; reflexivity ]
    | apply keeps_modify_meta; intros ?; reflexivity
    | progress keeps_tac ].

Lemma Request_CloneBody_requests r ctx :
  keeps (grows requests) (Request_CloneBody r ctx).
Proof. frame. Qed.

Lemma Request_CloneBody_responses r ctx :
  keeps (same responses) (Request_CloneBody r ctx).
Proof. frame. Qed.

Lemma Response_CloneBody_requests r :
  keeps (same requests) (Response_CloneBody r).
Proof. frame. Qed.

Lemma Response_CloneBody_responses r :
  keeps (grows responses) (Response_CloneBody r).
Proof. frame. Qed.

Lemma clone_pair_results result : keeps (same results) (clone_pair result).
Proof. frame. Qed.

Lemma clone_pair_chans result : keeps (same chans) (clone_pair result).
Proof. frame. Qed.

Lemma clone_pair_requests result : keeps (grows requests) (clone_pair result).
Proof.
  unfold clone_pair.
  apply keeps_bind; [tc_solve | apply keeps_load; tc_solve | intros res].
  apply keeps_bind; [tc_solve | apply Request_CloneBody_requests | intros req].
  apply keeps_bind; [tc_solve | apply keeps_load; tc_solve | intros res'].
  apply keeps_bind; [tc_solve | | intros; apply keeps_ret; tc_solve].
  intros w. unfold grows.
  by rewrite (Response_CloneBody_requests (Response_ res') w).
Qed.

Lemma clone_pair_responses result : keeps (grows responses) (clone_pair result).
Proof.
  unfold clone_pair.
  apply keeps_bind; [tc_solve | apply keeps_load; tc_solve | intros res].
  apply keeps_bind; [tc_solve | | intros req].
  { intros w. unfold grows.
    by rewrite (Request_CloneBody_responses (Request_ res) Background w). }
  apply keeps_bind; [tc_solve | apply keeps_load; tc_solve | intros res'].
  apply keeps_bind; [tc_solve | | intros; apply keeps_ret; tc_solve].
  apply Response_CloneBody_responses.
Qed.

Lemma deliver_requests plugin result cl :
  keeps (same requests) (deliver plugin result cl).
Proof. frame. Qed.

Lemma deliver_responses plugin result cl :
  keeps (same responses) (deliver plugin result cl).
Proof. frame. Qed.

Lemma clone_pair_meta result : keeps (same Results_meta) (clone_pair result).
Proof. frame. Qed.

Lemma deliver_meta plugin result cl :
  keeps (same Results_meta) (deliver plugin result cl).
Proof. frame. Qed.

Lemma keeps_interfere (R : World → World → Prop) act k :
  (∀ w, R w (act k w)) → keeps R (interfere act k).
Proof. intros H w. apply H. Qed.

(** What every clone, every delivery and every act of the plugins keeps, the
    whole loop keeps. *)
Lemma SendResult_loop_keeps (R : World → World → Prop) `{!PreOrder R}
    (act : Interference) (result : ptr) (ps : list pluginInfo) : ∀ k,
  keeps R (clone_pair result) →
  (∀ pl cl, keeps R (deliver pl result cl)) →
  (∀ k w, R w (act k w)) →
  keeps R (SendResult_loop act k ps result).
Proof.
  induction ps as [|pl ps IH]; intros k Hc Hd Ha; simpl.
  - apply keeps_ret; tc_solve.
  - apply keeps_bind; [tc_solve | exact Hc | intros cl].
    apply keeps_bind; [tc_solve | apply Hd | intros _].
    apply keeps_bind; [tc_solve | by apply keeps_interfere | intros _].
    by apply IH.
Qed.

Lemma SendResult_with_keeps (R : World → World → Prop) `{!PreOrder R}
    (act : Interference) (p result : ptr) :
  keeps R (clone_pair result) →
  (∀ pl cl, keeps R (deliver pl result cl)) →
  (∀ k w, R w (act k w)) →
  keeps R (SendResult_with act p result).
Proof.
  intros Hc Hd Ha. unfold SendResult_with.
  apply keeps_bind; [tc_solve | apply keeps_load; tc_solve | intros b].
  by apply SendResult_loop_keeps.
Qed.

Lemma Result_meta_lookup w q : Result_meta w q = Results_meta w !! q.
Proof. unfold Result_meta, Results_meta. by rewrite list_lookup_fmap. Qed.

(** ** The metadata of a [Result] *)

(** C7. Whatever the broker, the sequence of [SendResult] calls and their
    outcomes, the [Payload], [Location], [FieldName] and [TimeElapsed] of
    every [Result] of the store are afterwards what they were: the broker
    assigns to the [Request] and [Response] fields only. *)
Theorem SendResult_keeps_metadata (p : ptr) (rs : list ptr) (w : World) (q : nat) :
  Result_meta (SendResults p rs w) q = Result_meta w q.
Proof.
  rewrite !Result_meta_lookup. f_equal.
  revert w. induction rs as [|r rs IH]; intros w; simpl; [done|].
  rewrite IH. unfold SendResult.
  apply (SendResult_with_keeps (same Results_meta)).
  - apply clone_pair_meta.
  - intros. apply deliver_meta.
  - by intros.
Qed.

(** ** Deliveries *)

Lemma SendResult_loop_app act result ps1 : ∀ ps2 k w,
  SendResult_loop act k (ps1 ++ ps2) result w
  = bind (SendResult_loop act k ps1 result)
      (λ _, SendResult_loop act (k + length ps1) ps2 result) w.
Proof.
  induction ps1 as [|pl ps1 IH]; intros ps2 k w; simpl.
  - unfold bind, ret. by rewrite Nat.add_0_r.
  - unfold bind.
    destruct (clone_pair result w) as [[cl| | |] wa]; try done.
    destruct (deliver pl result cl wa) as [[[]| | |] wb]; try done.
    unfold interfere. rewrite IH. unfold bind.
    by replace (S k + length ps1)%nat with (k + S (length ps1))%nat by lia.
Qed.

Lemma deliver_chans pl result cl w w' :
  deliver pl result cl w = (Ok tt, w') →
  ∃ ch, chans w !! Input pl = Some ch ∧ closed ch = false
        ∧ chans w' = <[Input pl := {| closed := false;
                                      handed := handed ch ++ [result] |}]>
                       (chans w).
Proof.
  unfold deliver. intros H.
  apply bind_Ok_inv in H as ([] & wa & Ha & H).
  apply bind_Ok_inv in H as ([] & wb & Hb & H).
  assert (chans wb = chans w) as Hchans.
  { transitivity (chans wa).
    - pose proof (keeps_modify (same chans) resultsR result
                    (with_Response (Some cl.2)) (λ _ _, eq_refl) wa) as K.
      by rewrite Hb in K.
    - pose proof (keeps_modify (same chans) resultsR result
                    (with_Request (Some cl.1)) (λ _ _, eq_refl) w) as K.
      by rewrite Ha in K. }
  unfold chan_send in H. rewrite Hchans in H.
  destruct (chans w !! Input pl) as [ch|]; [|done].
  destruct (closed ch) eqn:Hc; [done|].
  injection H as <-. exists ch. simpl. by rewrite Hchans.
Qed.

Lemma deliveries_cons pl ps c :
  deliveries (pl :: ps) c
  = if decide (Input pl = c) then S (deliveries ps c) else deliveries ps c.
Proof. unfold deliveries. rewrite filter_cons. by case_decide. Qed.

Lemma handed_more_0 v ch : handed_more 0 v ch = ch.
Proof. destruct ch. unfold handed_more. simpl. by rewrite app_nil_r. Qed.

(** After a loop that has come to its end, every channel has been handed
    the pointer once per plugin that listens on it, and nothing else. *)
Lemma SendResult_loop_chans act result ps : ∀ k w w1,
  (∀ k w, chans (act k w) = chans w) →
  SendResult_loop act k ps result w = (Ok tt, w1) →
  (∀ c, chans w1 !! c = handed_more (deliveries ps c) result <$> chans w !! c)
  ∧ (∀ pl, pl ∈ ps → is_Some (chans w !! Input pl)).
Proof.
  induction ps as [|pl ps IH]; intros k w w1 Hact H; simpl in H.
  - injection H as <-. split.
    + intros c. destruct (chans w !! c) as [ch|]; simpl; [|done].
      by rewrite handed_more_0.
    + intros pl Hpl. by apply elem_of_nil in Hpl.
  - apply bind_Ok_inv in H as (cl & wa & Ha & H).
    apply bind_Ok_inv in H as ([] & wb & Hb & H).
    apply bind_Ok_inv in H as ([] & wc & Hc & H).
    injection Hc as <-.
    pose proof (clone_pair_chans result w) as Hk.
    rewrite Ha in Hk. unfold same in Hk. simpl in Hk.
    apply deliver_chans in Hb as (ch & Hch & Hopen & Hwb).
    rewrite Hk in Hch, Hwb.
    destruct (IH _ _ _ Hact H) as [IH1 IH2]. split.
    + intros c. rewrite IH1, Hact, Hwb, deliveries_cons.
      case_decide as Hc; [subst c|].
      * rewrite list_lookup_insert_eq by by eapply lookup_lt_Some.
        rewrite Hch. simpl. f_equal. unfold handed_more. simpl.
        rewrite <- app_assoc. by rewrite Hopen.
      * by rewrite list_lookup_insert_ne.
    + intros pl' [->|Hpl]%elem_of_cons; [by eexists|].
      specialize (IH2 pl' Hpl). rewrite Hact, Hwb in IH2.
      destruct (decide (Input pl = Input pl')) as [<-|Hne]; [by eexists|].
      by rewrite list_lookup_insert_ne in IH2.
Qed.

Lemma deliveries_notin ps c : c ∉ (Input <$> ps) → deliveries ps c = 0%nat.
Proof.
  induction ps as [|pl ps IH]; simpl; intros Hnotin; [done|].
  apply not_elem_of_cons in Hnotin as [Hne Hnotin].
  rewrite deliveries_cons. case_decide; [done|]. by apply IH.
Qed.

Lemma deliveries_NoDup ps c :
  NoDup (Input <$> ps) → c ∈ (Input <$> ps) → deliveries ps c = 1%nat.
Proof.
  induction ps as [|pl ps IH]; simpl; intros Hnd Hin.
  - by apply elem_of_nil in Hin.
  - apply NoDup_cons in Hnd as [Hnotin Hnd]. rewrite deliveries_cons.
    case_decide as Hc.
    + subst c. f_equal. by apply deliveries_notin.
    + apply IH; [done|]. by apply elem_of_cons in Hin as [?|?].
Qed.

(** ** Partial delivery *)

(** C4. Let the plugins of a broker have a channel each, and let them do to
    the store what they like except to the channels.  If the deliveries to
    the plugins before index [i] have gone through and cloning the request
    or the response then fails with [e] for the plugin of index [i], then
    [SendResult] returns the error [e], every plugin before [i] has been
    handed the [Result] on its channel, and the channels of the plugin of
    index [i] and of those after it are as they were. *)
Theorem SendResult_partial_delivery (act : Interference) (w w1 w2 : World)
    (p : nat) (b : PluginBroker) (result : ptr) (i : nat) (e : error) :
  (∀ k w, chans (act k w) = chans w) →
  brokers w !! p = Some b → (i < length (plugins b))%nat →
  NoDup (Input <$> plugins b) →
  SendResult_loop act 0 (take i (plugins b)) result w = (Ok tt, w1) →
  clone_pair result w1 = (Fail e, w2) →
  SendResult_with act (Some p) result w = (Fail e, w2)
  ∧ (∀ j pl, (j < i)%nat → plugins b !! j = Some pl →
       ∃ ch, chans w !! Input pl = Some ch
             ∧ chans w2 !! Input pl
               = Some {| closed := closed ch; handed := handed ch ++ [result] |})
  ∧ (∀ j pl, (i ≤ j)%nat → plugins b !! j = Some pl →
       chans w2 !! Input pl = chans w !! Input pl).
Proof.
  intros Hact Hb Hi Hnd Hpre Hfail.
  destruct (SendResult_loop_chans act result _ _ _ _ Hact Hpre) as [Hch Hex].
  assert (chans w2 = chans w1) as Hw2.
  { pose proof (clone_pair_chans result w1) as K. by rewrite Hfail in K. }
  rewrite <- (take_drop i (plugins b)) in Hnd.
  rewrite fmap_app in Hnd. apply NoDup_app in Hnd as (Hnd1 & Hdisj & Hnd2).
  split; [|split].
  - unfold SendResult_with, bind at 1, load. simpl. rewrite Hb.
    rewrite <- (take_drop i (plugins b)) at 1.
    rewrite SendResult_loop_app. erewrite bind_Ok by exact Hpre.
    destruct (drop i (plugins b)) as [|pl rest] eqn:Hdrop.
    { apply (f_equal length) in Hdrop. rewrite length_drop in Hdrop.
      simpl in Hdrop. lia. }
    simpl. by erewrite bind_Fail by exact Hfail.
  - intros j pl Hj Hpl.
    assert (pl ∈ take i (plugins b)) as Hin.
    { apply list_elem_of_lookup. exists j. by rewrite lookup_take_lt. }
    destruct (Hex pl Hin) as [ch Hc]. exists ch. split; [done|].
    rewrite Hw2, Hch, Hc. simpl.
    rewrite deliveries_NoDup; [done | done |].
    by apply list_elem_of_fmap_2.
  - intros j pl Hj Hpl.
    assert (pl ∈ drop i (plugins b)) as Hin.
    { apply list_elem_of_lookup. exists (j - i)%nat. rewrite lookup_drop.
      by replace (i + (j - i))%nat with j by lia. }
    rewrite Hw2, Hch, deliveries_notin.
    + destruct (chans w !! Input pl); simpl; [|done]. by rewrite handed_more_0.
    + intros Hin'. apply (Hdisj _ Hin'). by apply list_elem_of_fmap_2.
Qed.

Lemma break_Request_Body_chans result e :
  keeps (same chans) (break_Request_Body result e).
Proof. unfold break_Request_Body. frame. Qed.

Lemma ex_act_chans k w : chans (ex_act k w) = chans w.
Proof.
  unfold ex_act. destruct (k =? 1)%nat; [|done].
  apply break_Request_Body_chans.
Qed.

(** The third of five plugins: the second plugin has put a failing reader
    in the place of the request body it was handed. *)
Lemma SendResult_partial_delivery_witness :
  let w1 := (SendResult_loop ex_act 0 (take 2 (plugins ex_broker5))
               (Some 0%nat) ex_world5).2 in
  let w2 := (clone_pair (Some 0%nat) w1).2 in
  SendResult_with ex_act (Some 0%nat) (Some 0%nat) ex_world5
  = (Fail "connection reset", w2)
  ∧ (∀ j pl, (j < 2)%nat → plugins ex_broker5 !! j = Some pl →
       ∃ ch, chans ex_world5 !! Input pl = Some ch
             ∧ chans w2 !! Input pl
               = Some {| closed := closed ch;
                         handed := handed ch ++ [Some 0%nat] |})
  ∧ (∀ j pl, (2 ≤ j)%nat → plugins ex_broker5 !! j = Some pl →
       chans w2 !! Input pl = chans ex_world5 !! Input pl).
Proof.
  intros w1 w2.
  apply (SendResult_partial_delivery ex_act ex_world5 w1 w2 0 ex_broker5
           (Some 0%nat) 2 "connection reset").
  - exact ex_act_chans.
  - reflexivity.
  - simpl. lia.
  - apply (bool_decide_unpack _). vm_compute. exact I.
  - vm_compute. reflexivity.
  - vm_compute. reflexivity.
Defined.

(** ** What the [Result] refers to after [SendResult] *)

Lemma keeps_same_Ok {A X} (f : World → X) (m : M A) w o w' :
  keeps (same f) m → m w = (o, w') → f w' = f w.
Proof. intros K H. specialize (K w). by rewrite H in K. Qed.

(** Takes a run that ended well apart into its steps. *)
Ltac inv_binds H :=
  repeat (let a := fresh "a" in let wx := fresh "wx" in
          let Hs := fresh "Hs" in
          apply bind_Ok_inv in H as (a & wx & Hs & H)).

(** Adds, for a step [Hs], that it has kept the region [f]. *)
Ltac same_of f Hs :=
  match type of Hs with
  | ?m ?w = (_, ?w') =>
      let K := fresh "K" in
      assert (f w' = f w) as K
        by (refine (keeps_same_Ok f m w _ w' _ Hs); frame)
  end.

Lemma Response_CloneBody_returns r w q w' :
  Response_CloneBody r w = (Ok q, w') → q = length (responses w).
Proof.
  unfold Response_CloneBody. intros H. inv_binds H.
  repeat match goal with
  | Hs : _ _ = (Ok _, _) |- _ => same_of responses Hs; clear Hs
  end.
  injection H as <- _. congruence.
Qed.

Lemma Request_CloneBody_returns r ctx w q w' :
  Request_CloneBody r ctx w = (Ok q, w') → q = length (requests w).
Proof.
  unfold Request_CloneBody. intros H.
  apply bind_Ok_inv in H as (rw & w1 & H1 & H).
  apply bind_Ok_inv in H as (inner & w2 & H2 & H).
  apply bind_Ok_inv in H as (req & w3 & H3 & H).
  apply bind_Ok_inv in H as (rq & w4 & H4 & H).
  same_of requests H1. same_of requests H2.
  injection H3 as <- _.
  assert (req' : ∃ wz, (ret (length (requests w2)) : M nat) wz = (Ok q, w')).
  { destruct (rq_Body rq); [|by eexists].
    inv_binds H. by eexists. }
  destruct req' as [wz Hq]. injection Hq as <- _. congruence.
Qed.

Lemma clone_pair_returns result w req resp w' :
  clone_pair result w = (Ok (req, resp), w') →
  req = length (requests w) ∧ resp = length (responses w).
Proof.
  unfold clone_pair. intros H. inv_binds H. injection H as <- <- _.
  match goal with
  | H1 : load _ _ _ = _, H2 : Request_CloneBody _ _ _ = _,
    H3 : load _ _ _ = _, H4 : Response_CloneBody _ _ = _ |- _ =>
      same_of requests H1; same_of responses H1;
      same_of responses H3;
      pose proof (keeps_same_Ok responses _ _ _ _
                    (Request_CloneBody_responses _ _) H2);
      apply Request_CloneBody_returns in H2;
      apply Response_CloneBody_returns in H4
  end.
  split; congruence.
Qed.

Lemma modify_results_Ok r f w w' :
  modify resultsR (Some r) f w = (Ok tt, w') →
  ∃ x, results w !! r = Some x ∧ w' = set_results (λ l, <[r := f x]> l) w.
Proof.
  unfold modify. simpl. destruct (results w !! r) as [x|]; [|done].
  intros [= <-]. by exists x.
Qed.

Lemma deliver_refs pl r cl w w' :
  deliver pl (Some r) cl w = (Ok tt, w') →
  Result_refs w' r = Some (Some cl.1, Some cl.2)
  ∧ requests w' = requests w ∧ responses w' = responses w.
Proof.
  intros H. split; [|split].
  - unfold deliver in H.
    apply bind_Ok_inv in H as ([] & wa & Ha & H).
    apply bind_Ok_inv in H as ([] & wb & Hb & H).
    same_of results H.
    apply modify_results_Ok in Ha as (x & Hx & ->).
    apply modify_results_Ok in Hb as (y & Hy & ->).
    simpl in *. unfold Result_refs. rewrite K.
    rewrite list_lookup_insert_eq
      by (rewrite length_insert; by eapply lookup_lt_Some).
    rewrite list_lookup_insert_eq in Hy by by eapply lookup_lt_Some.
    by injection Hy as <-.
  - exact (keeps_same_Ok requests _ _ _ _ (deliver_requests _ _ _) H).
  - exact (keeps_same_Ok responses _ _ _ _ (deliver_responses _ _ _) H).
Qed.

(** One turn of the loop, with no plugin meddling. *)
Lemma SendResult_turn pl ps k r w w' :
  SendResult_loop quiet k (pl :: ps) (Some r) w = (Ok tt, w') →
  ∃ wa wb,
    clone_pair (Some r) w
    = (Ok (length (requests w), length (responses w)), wa)
    ∧ deliver pl (Some r) (length (requests w), length (responses w)) wa
      = (Ok tt, wb)
    ∧ SendResult_loop quiet (S k) ps (Some r) wb = (Ok tt, w').
Proof.
  simpl. intros H.
  apply bind_Ok_inv in H as ([req resp] & wa & Ha & H).
  apply bind_Ok_inv in H as ([] & wb & Hb & H).
  apply bind_Ok_inv in H as ([] & wc & Hc & H).
  injection Hc as <-.
  destruct (clone_pair_returns _ _ _ _ _ Ha) as [-> ->]. eauto.
Qed.

(** After a loop over one plugin or more, the [Result] refers to a pair made
    during the loop. *)
Lemma SendResult_loop_refs r ps : ∀ k w w',
  ps ≠ [] →
  SendResult_loop quiet k ps (Some r) w = (Ok tt, w') →
  ∃ req resp, Result_refs w' r = Some (Some req, Some resp)
    ∧ (length (requests w) ≤ req)%nat ∧ (length (responses w) ≤ resp)%nat.
Proof.
  induction ps as [|pl ps IH]; intros k w w' Hne H; [done|].
  apply SendResult_turn in H as (wa & wb & Ha & Hb & H).
  apply deliver_refs in Hb as (Hrefs & Hrq & Hrs).
  destruct ps as [|pl' ps].
  - injection H as <-. eauto.
  - destruct (IH _ _ _ ltac:(done) H) as (req & resp & Hr & Hq & Hp).
    exists req, resp. split; [done|].
    pose proof (clone_pair_requests (Some r) w) as G1.
    pose proof (clone_pair_responses (Some r) w) as G2.
    rewrite Ha in G1, G2. unfold grows in G1, G2. simpl in *.
    rewrite Hrq in Hq. rewrite Hrs in Hp. lia.
Qed.

Lemma SendResult_loop_grows r ps k w w' :
  SendResult_loop quiet k ps (Some r) w = (Ok tt, w') →
  (length (requests w) ≤ length (requests w'))%nat
  ∧ (length (responses w) ≤ length (responses w'))%nat.
Proof.
  intros H. split.
  - assert (keeps (grows requests) (SendResult_loop quiet k ps (Some r))) as K.
    { apply SendResult_loop_keeps; [tc_solve | apply clone_pair_requests | |].
      - intros. frame.
      - intros. unfold grows, quiet. lia. }
    specialize (K w). by rewrite H in K.
  - assert (keeps (grows responses) (SendResult_loop quiet k ps (Some r))) as K.
    { apply SendResult_loop_keeps; [tc_solve | apply clone_pair_responses | |].
      - intros. frame.
      - intros. unfold grows, quiet. lia. }
    specialize (K w). by rewrite H in K.
Qed.

(** C1, as the code has it.  After a [SendResult] that has returned [nil] on
    a broker whose plugins are [ps] and then [pl], the [Result] refers to
    the pair that was cloned for [pl], the last plugin: [w1] being the store
    that the deliveries to [ps] have left, that pair is the one [clone_pair]
    makes in [w1] of what the [Result] refers to there.  It is a pair made
    during the call, not the pair the [Result] referred to before, which is
    not put back; and where [ps] is not empty the pair it was cloned from is
    itself one made during the call, for an earlier plugin. *)
Theorem SendResult_refers_to_last_clone (w w' : World) (p r : nat)
    (b : PluginBroker) (ps : list pluginInfo) (pl : pluginInfo) :
  brokers w !! p = Some b → plugins b = ps ++ [pl] →
  SendResult (Some p) (Some r) w = (Ok tt, w') →
  ∃ w1 w2,
    SendResult_loop quiet 0 ps (Some r) w = (Ok tt, w1)
    ∧ clone_pair (Some r) w1
      = (Ok (length (requests w1), length (responses w1)), w2)
    ∧ Result_refs w' r
      = Some (Some (length (requests w1)), Some (length (responses w1)))
    ∧ (length (requests w) ≤ length (requests w1))%nat
    ∧ (length (responses w) ≤ length (responses w1))%nat
    ∧ (ps ≠ [] →
       ∃ req1 resp1, Result_refs w1 r = Some (Some req1, Some resp1)
         ∧ (length (requests w) ≤ req1)%nat
         ∧ (length (responses w) ≤ resp1)%nat).
Proof.
  intros Hb Hps H.
  unfold SendResult, SendResult_with, bind at 1, load in H. simpl in H.
  rewrite Hb, Hps, SendResult_loop_app in H.
  apply bind_Ok_inv in H as ([] & w1 & H1 & H).
  apply SendResult_turn in H as (w2 & wb & Ha & Hd & H).
  injection H as <-.
  apply deliver_refs in Hd as (Hrefs & _ & _).
  destruct (SendResult_loop_grows _ _ _ _ _ H1) as [G1 G2].
  exists w1, w2. repeat split; try done.
  intros Hne. by apply (SendResult_loop_refs r ps 0 w w1).
Qed.

(** The five plugins of [ex_world5] and the [Result] at 0. *)
Lemma SendResult_refers_to_last_clone_witness :
  ∃ w1 w2,
    SendResult_loop quiet 0 (take 4 (plugins ex_broker5)) (Some 0%nat) ex_world5
    = (Ok tt, w1)
    ∧ clone_pair (Some 0%nat) w1
      = (Ok (length (requests w1), length (responses w1)), w2)
    ∧ Result_refs (SendResult (Some 0%nat) (Some 0%nat) ex_world5).2 0
      = Some (Some (length (requests w1)), Some (length (responses w1)))
    ∧ (length (requests ex_world5) ≤ length (requests w1))%nat
    ∧ (length (responses ex_world5) ≤ length (responses w1))%nat
    ∧ (take 4 (plugins ex_broker5) ≠ [] →
       ∃ req1 resp1, Result_refs w1 0 = Some (Some req1, Some resp1)
         ∧ (length (requests ex_world5) ≤ req1)%nat
         ∧ (length (responses ex_world5) ≤ resp1)%nat).
Proof.
  apply (SendResult_refers_to_last_clone ex_world5 _ 0 0 ex_broker5
           (take 4 (plugins ex_broker5))
           {| Input := 4; plugin_Listener := MkListener 5 |}).
  - reflexivity.
  - reflexivity.
  - vm_compute. reflexivity.
Defined.

(** C1 as stated fails: in [ex_world5] the [Result] at 0 refers to the
    request and the response at 0 before [SendResult], and to the clones at
    6 and 5 after it. *)
Lemma SendResult_does_not_restore : ¬ restores_original.
Proof.
  intros H.
  specialize (H ex_world5 (SendResult (Some 0%nat) (Some 0%nat) ex_world5).2
                0%nat 0%nat ex_broker5 (Some 0%nat, Some 0%nat)).
  assert (Result_refs (SendResult (Some 0%nat) (Some 0%nat) ex_world5).2 0
          = Some (Some 6%nat, Some 5%nat)) as Hafter
    by (vm_compute; reflexivity).
  rewrite H in Hafter; [discriminate | reflexivity | done | reflexivity |].
  vm_compute. reflexivity.
Qed.

(** ** Two plugins and one [Result] *)

(** C2, with two plugins and the [Result] at 0 of [ex_world2].
    [SendResult] returns [nil], and both plugins have been handed the same
    pointer, to the one [Result] of the producer.  Through it both reach the
    same request: its body reads ["abc"] as the original did, but a header
    that the first plugin sets is there for the second, and once the first
    has read the body the second finds it empty. *)
Theorem SendResult_plugins_share_the_Result :
  let first := received ex_sent2 0 in
  let second := received ex_sent2 1 in
  SendResult (Some 0%nat) (Some 0%nat) ex_world2 = (Ok tt, ex_sent2)
  ∧ first = Some 0%nat ∧ second = Some 0%nat
  ∧ body_bytes ex_sent2 (Result_Request_Body ex_sent2 second)
    = Some ["a"; "b"; "c"]%byte
  ∧ Header_Get ex_sent2 (Result_Request_Header ex_sent2 second) "X-Seen" = None
  ∧ (let w := (Header_Set (Result_Request_Header ex_sent2 first)
                 "X-Seen" "1" ex_sent2).2 in
     Header_Get w (Result_Request_Header w second) "X-Seen" = Some "1")
  ∧ (let w := (ReadAll (Result_Request_Body ex_sent2 first) ex_sent2).2 in
     body_bytes w (Result_Request_Body w second) = Some []).
Proof. vm_compute. repeat split; reflexivity. Qed.

(** ** The loader *)

Lemma load_steps {A} fs logger path (k : Listener → M A) w :
  (plg <- plugin_Open fs path ;;
   symbol <- Lookup plg "New" ;;
   initializer <- assert_initializer symbol ;;
   httpfuzzListener <- call_initializer initializer logger ;;
   k httpfuzzListener) w
  = match load_listener fs logger path with
    | Ok l => k l w
    | Fail e => (Fail e, w)
    | Panic => (Panic, w)
    | Blocked => (Blocked, w)
    end.
Proof.
  unfold load_listener, plugin_Open, Lookup, assert_initializer,
    call_initializer, bind.
  destruct (fs path) as [plg|]; simpl; [|done].
  destruct (exports plg "New") as [[new|]|]; simpl; try done.
  by destruct (new logger).
Qed.

Lemma add_Ok p plugin w b :
  brokers w !! p = Some b →
  add (Some p) plugin w
  = (Ok tt,
     set_brokers
       (λ l, <[p := {| plugins := plugins b ++ [plugin];
                       waitGroup := waitGroup b + 1 |}]> l) w).
Proof.
  intros Hb. unfold add, bind, modify. simpl. rewrite Hb. simpl.
  rewrite list_lookup_insert_eq by by eapply lookup_lt_Some.
  f_equal. apply World_ext; simpl; try done.
  by rewrite list_insert_insert_eq.
Qed.

(** The loop of [LoadPlugins], as a function of the store. *)
Lemma LoadPlugins_loop_eq fs logger p paths : ∀ w b,
  brokers w !! p = Some b →
  LoadPlugins_loop fs logger (Some p) paths w
  = (outcome_of (load_all fs logger paths),
     LoadPlugins_world w p b (loaded_before fs logger paths)).
Proof.
  induction paths as [|path rest IH]; intros w b Hb.
  - simpl. f_equal. apply World_ext; simpl; try done.
    + by rewrite app_nil_r.
    + rewrite app_nil_r, Z.add_0_r. destruct b. simpl.
      by rewrite list_insert_id.
    + by rewrite app_nil_r.
  - cbn [LoadPlugins_loop load_all loaded_before]. rewrite load_steps.
    destruct (load_listener fs logger path) as [l| | |].
    2-4: (f_equal; apply World_ext; simpl; try done;
          [ by rewrite app_nil_r
          | rewrite app_nil_r, Z.add_0_r; destruct b; simpl;
            by rewrite list_insert_id
          | by rewrite app_nil_r ]).
    erewrite bind_Ok by reflexivity.
    erewrite bind_Ok by (apply add_Ok; exact Hb).
    erewrite bind_Ok by reflexivity.
    erewrite IH; last first.
    { simpl. apply list_lookup_insert_eq. by eapply lookup_lt_Some. }
    destruct (load_all fs logger rest); simpl.
    all: f_equal; apply World_ext; simpl; try done.
    all: rewrite ?length_app, ?list_insert_insert_eq, <- ?app_assoc; simpl.
    all: try (f_equal; f_equal; [ by rewrite Nat.add_1_r | lia ]).
    all: try by rewrite Nat.add_1_r.
    all: reflexivity.
Qed.

Lemma LoadPlugins_eq fs logger paths w :
  let p := length (brokers w) in
  let w0 := set_brokers (λ l, l ++ [ {| plugins := []; waitGroup := 0 |} ]) w in
  LoadPlugins fs logger paths w
  = (match load_all fs logger paths with
     | Ok _ => Ok p
     | Fail e => Fail e
     | Panic => Panic
     | Blocked => Blocked
     end,
     LoadPlugins_world w0 p {| plugins := []; waitGroup := 0 |}
       (loaded_before fs logger paths)).
Proof.
  intros p w0. unfold LoadPlugins.
  erewrite bind_Ok by reflexivity.
  unfold bind. erewrite LoadPlugins_loop_eq by apply lookup_snoc_new.
  by destruct (load_all fs logger paths).
Qed.

Lemma load_all_Ok fs logger paths : ∀ ls,
  load_all fs logger paths = Ok ls ↔
  Forall2 (λ path l, load_listener fs logger path = Ok l) paths ls.
Proof.
  induction paths as [|path rest IH]; intros ls; simpl.
  - split; [intros [= <-]; constructor | by intros ->%Forall2_nil_inv_l].
  - split.
    + destruct (load_listener fs logger path) as [l| | |] eqn:Hl; try done.
      destruct (load_all fs logger rest) as [ls'| | |]; try done.
      intros [= <-]. constructor; [done|]. by apply IH.
    + intros (l & ls' & Hl & Hall & ->)%Forall2_cons_inv_l.
      rewrite Hl. apply IH in Hall. by rewrite Hall.
Qed.

Lemma load_all_loaded_before fs logger paths : ∀ ls,
  load_all fs logger paths = Ok ls → loaded_before fs logger paths = ls.
Proof.
  induction paths as [|path rest IH]; intros ls; simpl.
  - by intros [= <-].
  - destruct (load_listener fs logger path) as [l| | |]; try done.
    destruct (load_all fs logger rest) as [ls'| | |]; try done.
    intros [= <-]. f_equal. by apply IH.
Qed.




Lemma register_at_Input c ls : Input <$> register_at c ls = seq c (length ls).
Proof.
  revert c. induction ls as [|l ls IH]; intros c; simpl; [done|].
  by rewrite IH.
Qed.

Lemma register_at_length c ls : length (register_at c ls) = length ls.
Proof.
  revert c. induction ls as [|l ls IH]; intros c; simpl; [done|].
  by rewrite IH.
Qed.




(** ** The goroutines and the wait group *)

Lemma listening_workers_for p ps : listening (workers_for p ps) = length ps.
Proof. induction ps as [|pl ps IH]; simpl; [done|]. by rewrite IH. Qed.

Lemma workers_for_Forall2 p ps :
  Forall2 (λ pl g, g_listener g = plugin_Listener pl
                   ∧ g_results g = Input pl ∧ g_broker g = Some p)
    ps (workers_for (Some p) ps).
Proof.
  unfold workers_for. apply Forall2_fmap_r, Forall_Forall2_diag.
  by apply Forall_forall.
Qed.

Lemma register_at_bound c ls :
  Forall (λ pl, (Input pl < c + length ls)%nat) (register_at c ls).
Proof.
  revert c. induction ls as [|l ls IH]; intros c; simpl; constructor.
  - simpl. lia.
  - eapply Forall_impl; [apply (IH (S c))|]. simpl. intros pl ?. lia.
Qed.

Lemma LoadPlugins_broker_inv fs logger paths w p w' :
  goroutines w = [] →
  LoadPlugins fs logger paths w = (Ok p, w') →
  broker_inv p w'.
Proof.
  intros Hg. rewrite LoadPlugins_eq.
  destruct (load_all fs logger paths) as [ls| | |] eqn:Hls; try done.
  intros [= <- <-].
  rewrite (load_all_loaded_before _ _ _ _ Hls).
  exists {| plugins := register_at (length (chans w)) ls;
            waitGroup := Z.of_nat (length ls) |}.
  unfold LoadPlugins_world. simpl. rewrite Hg. simpl.
  split; [|split; [|split; [|split]]].
  - rewrite insert_snoc_new by done. apply lookup_snoc_new.
  - apply workers_for_Forall2.
  - by rewrite listening_workers_for, register_at_length.
  - rewrite length_app, length_replicate. apply register_at_bound.
  - rewrite register_at_Input. apply NoDup_seq.
Qed.

Lemma broker_inv_frame p w w' :
  brokers w' = brokers w → goroutines w' = goroutines w →
  length (chans w') = length (chans w) →
  broker_inv p w → broker_inv p w'.
Proof.
  intros Hb Hg Hc (b & ? & ? & ? & ? & ?). exists b.
  by rewrite Hb, Hg, Hc.
Qed.

Lemma chan_send_length c v :
  keeps (same (λ w, length (chans w))) (chan_send c v).
Proof.
  intros w. unfold chan_send, same.
  destruct (chans w !! c) as [ch|]; [|done].
  destruct (closed ch); [done|]. simpl. by rewrite length_insert.
Qed.

Lemma chan_close_length c :
  keeps (same (λ w, length (chans w))) (chan_close c).
Proof.
  intros w. unfold chan_close, same.
  destruct (chans w !! c) as [ch|]; [|done].
  destruct (closed ch); [done|]. simpl. by rewrite length_insert.
Qed.

Lemma deliver_length pl result cl :
  keeps (same (λ w, length (chans w))) (deliver pl result cl).
Proof.
  unfold deliver.
  apply keeps_bind; [tc_solve | frame | intros _].
  apply keeps_bind; [tc_solve | frame | intros _].
  apply chan_send_length.
Qed.

Lemma SendResult_with_broker_inv act p result w o w' :
  gentle act →
  SendResult_with act (Some p) result w = (o, w') →
  broker_inv p w → broker_inv p w'.
Proof.
  intros Hact H. apply broker_inv_frame.
  - apply (keeps_same_Ok brokers _ _ _ _
             (SendResult_with_keeps (same brokers) act (Some p) result
                ltac:(frame) ltac:(intros; frame)
                (λ k w, proj1 (Hact k w))) H).
  - apply (keeps_same_Ok goroutines _ _ _ _
             (SendResult_with_keeps (same goroutines) act (Some p) result
                ltac:(frame) ltac:(intros; frame)
                (λ k w, proj1 (proj2 (Hact k w)))) H).
  - apply (keeps_same_Ok (λ w, length (chans w)) _ _ _ _
             (SendResult_with_keeps (same (λ w, length (chans w))) act
                (Some p) result ltac:(frame)
                (λ pl cl, deliver_length pl result cl)
                (λ k w, f_equal length (proj2 (proj2 (Hact k w))))) H).
Qed.

Lemma close_all_keeps (R : World → World → Prop) `{!PreOrder R} ps :
  (∀ c, keeps R (chan_close c)) → keeps R (close_all ps).
Proof.
  intros Hc. induction ps as [|pl ps IH]; simpl.
  - apply keeps_ret; tc_solve.
  - apply keeps_bind; [tc_solve | apply Hc | by intros _].
Qed.

Lemma SignalDone_keeps (R : World → World → Prop) `{!PreOrder R} p :
  (∀ c, keeps R (chan_close c)) → keeps R (SignalDone p).
Proof.
  intros Hc. unfold SignalDone.
  apply keeps_bind; [tc_solve | apply keeps_load; tc_solve | intros b].
  by apply close_all_keeps.
Qed.

Lemma SignalDone_broker_inv p w o w' :
  SignalDone (Some p) w = (o, w') → broker_inv p w → broker_inv p w'.
Proof.
  intros H. apply broker_inv_frame.
  - refine (keeps_same_Ok brokers _ _ _ _ (SignalDone_keeps _ _ _) H).
    intros c. by apply keeps_chan_close; [tc_solve|].
  - refine (keeps_same_Ok goroutines _ _ _ _ (SignalDone_keeps _ _ _) H).
    intros c. by apply keeps_chan_close; [tc_solve|].
  - refine (keeps_same_Ok (λ w, length (chans w)) _ _ _ _
              (SignalDone_keeps _ _ _) H).
    apply chan_close_length.
Qed.

Lemma worker_Ok returns i w w' :
  worker returns i w = (Ok tt, w') →
  ∃ g ch p b,
    goroutines w !! i = Some g ∧ g_phase g = Listening
    ∧ chans w !! g_results g = Some ch ∧ returns (g_listener g) ch = true
    ∧ g_broker g = Some p ∧ brokers w !! p = Some b ∧ 0 ≤ waitGroup b - 1
    ∧ w' = set_brokers
             (λ l, <[p := {| plugins := plugins b;
                             waitGroup := waitGroup b - 1 |}]> l)
             (set_goroutines (λ l, <[i := with_phase Returned g]> l) w).
Proof.
  unfold worker, Done, bind, load, modify, block, panic. simpl. intros H.
  destruct (goroutines w !! i) as [g|] eqn:Hg; simpl in H; [|done].
  destruct (g_phase g) eqn:Hph; simpl in H; [|done].
  destruct (chans w !! g_results g) as [ch|] eqn:Hch; simpl in H; [|done].
  destruct (returns (g_listener g) ch) eqn:Hret; simpl in H; [|done].
  rewrite ?Hg in H; simpl in H.
  destruct (g_broker g) as [p|] eqn:Hp; simpl in H; [|done].
  destruct (brokers w !! p) as [b|] eqn:Hb; simpl in H; [|done].
  destruct (waitGroup b - 1 <? 0) eqn:Hwg; simpl in H; [done|].
  rewrite Hb in H. injection H as <-.
  exists g, ch, p, b. repeat split; try done. lia.
Qed.

Lemma listening_insert gs : ∀ i g,
  gs !! i = Some g → g_phase g = Listening →
  listening gs = S (listening (<[i := with_phase Returned g]> gs)).
Proof.
  induction gs as [|g' gs IH]; intros [|i] g Hi Hph; simpl in *; try done.
  - injection Hi as ->. by rewrite Hph.
  - destruct (g_phase g'); [f_equal|]; by apply IH.
Qed.

Lemma worker_broker_inv returns p i w w' :
  worker returns i w = (Ok tt, w') → broker_inv p w → broker_inv p w'.
Proof.
  intros (g & ch & p' & b' & Hg & Hph & Hch & Hret & Hp & Hb' & Hwg & ->)%worker_Ok
    (b & Hb & HF & Hcount & Hin & Hnd).
  destruct (Forall2_lookup_r _ _ _ _ _ HF Hg) as (pl & Hpl & _ & _ & Hgp).
  rewrite Hp in Hgp. injection Hgp as ->. rewrite Hb in Hb'. injection Hb' as <-.
  exists {| plugins := plugins b; waitGroup := waitGroup b - 1 |}. simpl.
  split; [|split; [|split; [|split; [|done]]]].
  - apply list_lookup_insert_eq. by eapply lookup_lt_Some.
  - rewrite <- (list_insert_id (plugins b) i pl) by done.
    apply Forall2_insert; [done|].
    destruct (Forall2_lookup_lr _ _ _ _ _ _ HF Hpl Hg) as (? & ? & ?).
    by repeat split.
  - rewrite Hcount, (listening_insert _ i g Hg Hph). lia.
  - done.
Qed.

Lemma reachable_broker_inv returns p w :
  reachable returns p w → broker_inv p w.
Proof.
  induction 1 as [fs logger paths w w' Hg Hload
                 | act result w o w' _ IH Hact Hsend
                 | w o w' _ IH Hsig
                 | i w w' _ IH Hstep].
  - by eapply LoadPlugins_broker_inv.
  - by eapply SendResult_with_broker_inv.
  - by eapply SignalDone_broker_inv.
  - by eapply worker_broker_inv.
Qed.

(** ** A broker without plugins *)

Lemma empty_broker_steps (w : World) (p : nat) (act : Interference)
    (result : ptr) :
  brokers w !! p = Some {| plugins := []; waitGroup := 0 |} →
  SendResult_with act (Some p) result w = (Ok tt, w)
  ∧ SignalDone (Some p) w = (Ok tt, w)
  ∧ Wait (Some p) w = (Ok tt, w).
Proof.
  intros Hb.
  unfold SendResult_with, SignalDone, Wait, bind, load. simpl.
  by rewrite Hb.
Qed.

(** C8. In every store that a program reaches which loads its plugins and
    then uses the broker [p] it got, if that broker has no plugin then
    [SendResult] returns [nil] and [SignalDone] and [Wait] return, all three
    at once and with the store untouched: nothing is cloned, handed over or
    closed, and there is no goroutine for [Wait] to wait for. *)
Theorem empty_broker_noop (returns : Listener → Chan → bool) (w : World)
    (p : nat) (b : PluginBroker) (act : Interference) (result : ptr) :
  reachable returns p w →
  brokers w !! p = Some b → plugins b = [] →
  SendResult_with act (Some p) result w = (Ok tt, w)
  ∧ SignalDone (Some p) w = (Ok tt, w)
  ∧ Wait (Some p) w = (Ok tt, w).
Proof.
  intros Hreach Hb Hps.
  destruct (reachable_broker_inv _ _ _ Hreach)
    as (b' & Hb' & HF & Hcount & _ & _).
  rewrite Hb in Hb'. injection Hb' as <-.
  rewrite Hps in HF. apply Forall2_nil_inv_l in HF.
  rewrite HF in Hcount. simpl in Hcount.
  apply empty_broker_steps. rewrite Hb.
  destruct b as [ps wg]. simpl in *. by subst ps wg.
Qed.

(** The broker that [LoadPlugins] returns for no path, in [ex_world]. *)
Lemma empty_broker_noop_witness :
  let w := (LoadPlugins ex_files ex_logger [] ex_world).2 in
  SendResult_with quiet (Some 0%nat) (Some 0%nat) w = (Ok tt, w)
  ∧ SignalDone (Some 0%nat) w = (Ok tt, w)
  ∧ Wait (Some 0%nat) w = (Ok tt, w).
Proof.
  intros w.
  apply (empty_broker_noop until_closed w 0
           {| plugins := []; waitGroup := 0 |} quiet (Some 0%nat)).
  - apply (reach_LoadPlugins until_closed 0 ex_files ex_logger [] ex_world w);
      reflexivity.
  - reflexivity.
  - reflexivity.
Defined.

(** ** Closing the channels and waiting *)

Lemma listening_0 gs :
  listening gs = 0%nat ↔ Forall (λ g, g_phase g = Returned) gs.
Proof.
  induction gs as [|g gs IH]; simpl.
  - split; [constructor | done].
  - destruct (g_phase g) eqn:Hph.
    + split; [done|]. intros [? _]%Forall_cons. congruence.
    + rewrite IH. split; [by constructor | by intros [_ ?]%Forall_cons].
Qed.

Lemma chan_close_closed c w w' :
  chan_close c w = (Ok tt, w') →
  (∃ ch, chans w' !! c = Some ch ∧ closed ch = true)
  ∧ (∀ c' ch, chans w !! c' = Some ch → closed ch = true →
       ∃ ch', chans w' !! c' = Some ch' ∧ closed ch' = true)
  ∧ brokers w' = brokers w.
Proof.
  unfold chan_close.
  destruct (chans w !! c) as [ch0|] eqn:Hc; [|done].
  destruct (closed ch0) eqn:Hcl; [done|]. intros [= <-]. simpl.
  split; [|split; [|done]].
  - eexists. split;
      [apply list_lookup_insert_eq; by eapply lookup_lt_Some | done].
  - intros c' ch Hc' Hclosed. exists ch. split; [|done].
    rewrite list_lookup_insert_ne; [done|]. intros ->. congruence.
Qed.

Lemma close_all_closed ps : ∀ w w',
  close_all ps w = (Ok tt, w') →
  (∀ pl, pl ∈ ps → ∃ ch, chans w' !! Input pl = Some ch ∧ closed ch = true)
  ∧ (∀ c ch, chans w !! c = Some ch → closed ch = true →
       ∃ ch', chans w' !! c = Some ch' ∧ closed ch' = true)
  ∧ brokers w' = brokers w.
Proof.
  induction ps as [|pl ps IH]; intros w w' H; simpl in H.
  - injection H as <-. split; [|split; [|done]].
    + intros pl Hpl. by apply elem_of_nil in Hpl.
    + eauto.
  - apply bind_Ok_inv in H as ([] & w1 & H1 & H).
    apply chan_close_closed in H1 as ((ch1 & Hch1 & Hcl1) & Hmono1 & Hb1).
    destruct (IH _ _ H) as (Hall & Hmono & Hb).
    split; [|split; [|congruence]].
    + intros pl' [->|Hin]%elem_of_cons; [|by apply Hall].
      by apply (Hmono _ ch1).
    + intros c ch Hc Hcl.
      destruct (Hmono1 c ch Hc Hcl) as (ch' & Hc' & Hcl').
      by apply (Hmono c ch').
Qed.

Lemma Wait_returns p w b :
  brokers w !! p = Some b →
  Wait (Some p) w = (if waitGroup b =? 0 then Ok tt else Blocked, w).
Proof.
  intros Hb. unfold Wait, bind, load. simpl. rewrite Hb.
  by destruct (waitGroup b =? 0).
Qed.

Lemma listening_Exists gs :
  (0 < listening gs)%nat ↔ Exists (λ g, g_phase g = Listening) gs.
Proof.
  induction gs as [|g gs IH]; simpl.
  - split; [lia | by intros ?%Exists_nil].
  - destruct (g_phase g) eqn:Hph.
    + split; [by left | lia].
    + rewrite IH. split; [by right|].
      intros [?|?]%Exists_cons; [congruence | done].
Qed.

(** Where every channel is closed, a goroutine still in [Listen] whose
    listener honours the contract runs to its end. *)
Lemma worker_enabled returns p w i g :
  honours_contract returns → broker_inv p w → all_closed p w →
  goroutines w !! i = Some g → g_phase g = Listening →
  ∃ w', worker returns i w = (Ok tt, w') ∧ all_closed p w'
        ∧ listening (goroutines w) = S (listening (goroutines w')).
Proof.
  intros Hcon (b & Hb & HF & Hcount & Hin & Hnd) Hclosed Hg Hph.
  destruct (Forall2_lookup_r _ _ _ _ _ HF Hg) as (pl & Hpl & Hl & Hres & Hgp).
  destruct (Hclosed b pl Hb) as (ch & Hch & Hcl);
    [by eapply list_elem_of_lookup_2|].
  pose proof (listening_insert _ i g Hg Hph) as Hdec.
  exists (set_brokers
            (λ l, <[p := {| plugins := plugins b;
                            waitGroup := waitGroup b - 1 |}]> l)
            (set_goroutines (λ l, <[i := with_phase Returned g]> l) w)).
  split; [|split].
  - unfold worker, Done, bind, load, modify. simpl.
    rewrite Hg, Hph. simpl. rewrite Hres, Hch. simpl.
    rewrite (Hcon _ _ Hcl), Hg. simpl. rewrite Hgp. simpl. rewrite Hb. simpl.
    destruct (waitGroup b - 1 <? 0) eqn:Hwg; [lia|].
    simpl. by rewrite ?Hb.
  - intros b' pl' Hb' Hpl'. simpl in *.
    rewrite list_lookup_insert_eq in Hb' by by eapply lookup_lt_Some.
    injection Hb' as <-. simpl in Hpl'. by apply (Hclosed b).
  - exact Hdec.
Qed.

Lemma listening_lookup gs :
  (0 < listening gs)%nat → ∃ i g, gs !! i = Some g ∧ g_phase g = Listening.
Proof.
  intros (g & Hin & Hph)%listening_Exists%Exists_exists.
  apply list_elem_of_lookup in Hin as [i Hi]. eauto.
Qed.

(** Where every channel is closed and the listeners honour the contract,
    the goroutines can all run to their end, and then [Wait] returns. *)
Lemma workers_drain returns p n : ∀ w,
  honours_contract returns → reachable returns p w → all_closed p w →
  listening (goroutines w) = n →
  ∃ ids w', run_workers returns ids w = (Ok tt, w')
           ∧ Forall (λ g, g_phase g = Returned) (goroutines w')
           ∧ Wait (Some p) w' = (Ok tt, w').
Proof.
  induction n as [|n IH]; intros w Hcon Hreach Hclosed Hn.
  - exists [], w. split; [done|].
    destruct (reachable_broker_inv _ _ _ Hreach) as (b & Hb & _ & Hcount & _ & _).
    split; [by apply listening_0|].
    rewrite (Wait_returns p w b Hb), Hcount, Hn. done.
  - destruct (listening_lookup (goroutines w)) as (i & g & Hg & Hph); [lia|].
    destruct (worker_enabled returns p w i g Hcon
                (reachable_broker_inv _ _ _ Hreach) Hclosed Hg Hph)
      as (w1 & Hstep & Hclosed1 & Hdec).
    destruct (IH w1 Hcon (reach_worker _ _ _ _ _ Hreach Hstep) Hclosed1)
      as (ids & w' & Hrun & Hall & Hwait); [lia|].
    exists (i :: ids), w'. split; [|done].
    simpl. by erewrite bind_Ok by exact Hstep.
Qed.

Lemma close_all_Ok ps : ∀ w,
  NoDup (Input <$> ps) →
  (∀ pl, pl ∈ ps → ∃ ch, chans w !! Input pl = Some ch ∧ closed ch = false) →
  ∃ w', close_all ps w = (Ok tt, w').
Proof.
  induction ps as [|pl ps IH]; intros w Hnd Hopen; simpl; [by eexists|].
  apply NoDup_cons in Hnd as [Hnotin Hnd].
  destruct (Hopen pl) as (ch & Hch & Hcl); [by left|].
  destruct (IH (set_chans (λ l, <[Input pl := {| closed := true;
                                                 handed := handed ch |}]> l) w)
              Hnd) as [w' Hw'].
  { intros pl' Hin. destruct (Hopen pl') as (ch' & Hch' & Hcl'); [by right|].
    exists ch'. split; [|done]. simpl.
    rewrite list_lookup_insert_ne; [done|].
    intros Heq. apply Hnotin. rewrite Heq. by apply list_elem_of_fmap_2. }
  exists w'. erewrite bind_Ok; [exact Hw'|].
  unfold chan_close. by rewrite Hch, Hcl.
Qed.

(** C9. In every store that a program reaches which loads its plugins and
    then uses the broker [p] it got: (1) if [Wait] returns, every goroutine
    of a plugin has returned; (2) while one of them is still in [Listen],
    [Wait] does not return; (3) [SignalDone] returns if the channels of the
    plugins are open, and after a [SignalDone] that has returned the channel
    of every plugin is closed; and, the listeners honouring the contract of
    [Listen], (4) where the channels are closed every goroutine still in
    [Listen] runs to its end, leaving the channels closed and one goroutine
    fewer in [Listen], so that (5) the goroutines all run to their end,
    after which [Wait] returns. *)
Theorem shutdown (returns : Listener → Chan → bool) (p : nat) (w : World) :
  reachable returns p w →
  (Wait (Some p) w = (Ok tt, w) →
   Forall (λ g, g_phase g = Returned) (goroutines w))
  ∧ (Exists (λ g, g_phase g = Listening) (goroutines w) →
     Wait (Some p) w = (Blocked, w))
  ∧ (all_open p w → ∃ w', SignalDone (Some p) w = (Ok tt, w'))
  ∧ (∀ w', SignalDone (Some p) w = (Ok tt, w') → all_closed p w')
  ∧ (honours_contract returns → all_closed p w →
     ∀ i g, goroutines w !! i = Some g → g_phase g = Listening →
       ∃ w', worker returns i w = (Ok tt, w') ∧ all_closed p w'
             ∧ listening (goroutines w) = S (listening (goroutines w')))
  ∧ (honours_contract returns → all_closed p w →
     ∃ ids w', run_workers returns ids w = (Ok tt, w')
               ∧ Forall (λ g, g_phase g = Returned) (goroutines w')
               ∧ Wait (Some p) w' = (Ok tt, w')).
Proof.
  intros Hreach.
  pose proof (reachable_broker_inv _ _ _ Hreach) as Hinv.
  destruct Hinv as (b & Hb & HF & Hcount & Hin & Hnd).
  split; [|split; [|split; [|split; [|split]]]].
  - rewrite (Wait_returns p w b Hb).
    destruct (waitGroup b =? 0) eqn:Hwg; [|done]. intros _.
    apply listening_0. lia.
  - intros Hex%listening_Exists. rewrite (Wait_returns p w b Hb).
    destruct (waitGroup b =? 0) eqn:Hwg; [lia|done].
  - intros Hopen.
    destruct (close_all_Ok (plugins b) w Hnd (λ pl, Hopen b pl Hb))
      as [w' Hw'].
    exists w'. unfold SignalDone, bind at 1, load. simpl. by rewrite Hb.
  - intros w' H. unfold SignalDone, bind at 1, load in H. simpl in H.
    rewrite Hb in H.
    destruct (close_all_closed _ _ _ H) as (Hall & _ & Hbr).
    intros b' pl Hb' Hpl. rewrite Hbr, Hb in Hb'. injection Hb' as <-.
    by apply Hall.
  - intros Hcon Hclosed i g Hg Hph.
    by apply (worker_enabled returns p w i g Hcon
                (reachable_broker_inv _ _ _ Hreach)).
  - intros Hcon Hclosed.
    by apply (workers_drain returns p (listening (goroutines w)) w).
Qed.

(** [ex_world5], as [LoadPlugins] has left it, with listeners that return
    when their channel is closed. *)
Lemma shutdown_witness :
  (Wait (Some 0%nat) ex_world5 = (Ok tt, ex_world5) →
   Forall (λ g, g_phase g = Returned) (goroutines ex_world5))
  ∧ (Exists (λ g, g_phase g = Listening) (goroutines ex_world5) →
     Wait (Some 0%nat) ex_world5 = (Blocked, ex_world5))
  ∧ (all_open 0 ex_world5 →
     ∃ w', SignalDone (Some 0%nat) ex_world5 = (Ok tt, w'))
  ∧ (∀ w', SignalDone (Some 0%nat) ex_world5 = (Ok tt, w') → all_closed 0 w')
  ∧ (honours_contract until_closed → all_closed 0 ex_world5 →
     ∀ i g, goroutines ex_world5 !! i = Some g → g_phase g = Listening →
       ∃ w', worker until_closed i ex_world5 = (Ok tt, w') ∧ all_closed 0 w'
             ∧ listening (goroutines ex_world5) = S (listening (goroutines w')))
  ∧ (honours_contract until_closed → all_closed 0 ex_world5 →
     ∃ ids w', run_workers until_closed ids ex_world5 = (Ok tt, w')
               ∧ Forall (λ g, g_phase g = Returned) (goroutines w')
               ∧ Wait (Some 0%nat) w' = (Ok tt, w')).
Proof.
  apply (shutdown until_closed 0 ex_world5).
  apply (reach_LoadPlugins until_closed 0 ex_files ex_logger ex_paths5
           ex_world ex_world5).
  - reflexivity.
  - vm_compute. reflexivity.
Defined.

(** ** Before [SignalDone] *)

Lemma dispatching_reachable returns p w :
  dispatching returns p w → reachable returns p w.
Proof.
  induction 1.
  - by eapply reach_LoadPlugins.
  - by eapply reach_SendResult.
  - by eapply reach_worker.
Qed.

Lemma register_at_range c ls pl :
  pl ∈ register_at c ls → (c ≤ Input pl < c + length ls)%nat.
Proof.
  revert c. induction ls as [|l ls IH]; intros c; simpl.
  - by intros ?%elem_of_nil.
  - intros [->|Hin]%elem_of_cons; simpl; [lia|].
    specialize (IH _ Hin). lia.
Qed.

Lemma LoadPlugins_all_open fs logger paths w p w' :
  LoadPlugins fs logger paths w = (Ok p, w') → all_open p w'.
Proof.
  rewrite LoadPlugins_eq.
  destruct (load_all fs logger paths) as [ls| | |] eqn:Hls; try done.
  intros [= <- <-]. rewrite (load_all_loaded_before _ _ _ _ Hls).
  intros b pl Hb Hpl. unfold LoadPlugins_world in *. simpl in *.
  rewrite insert_snoc_new in Hb by done.
  rewrite lookup_snoc_new in Hb. injection Hb as <-. simpl in Hpl.
  apply register_at_range in Hpl.
  exists new_chan. split; [|done].
  rewrite lookup_app_r by lia. apply lookup_replicate_2. lia.
Qed.

Lemma chan_send_flags c v : keeps (same closed_flags) (chan_send c v).
Proof.
  intros w. unfold chan_send, same, closed_flags.
  destruct (chans w !! c) as [ch|] eqn:Hc; [|done].
  destruct (closed ch) eqn:Hcl; [done|]. simpl.
  rewrite list_fmap_insert. simpl. apply list_insert_id.
  by rewrite list_lookup_fmap, Hc, <- Hcl.
Qed.

Lemma deliver_flags pl result cl :
  keeps (same closed_flags) (deliver pl result cl).
Proof.
  unfold deliver.
  apply keeps_bind; [tc_solve | frame | intros _].
  apply keeps_bind; [tc_solve | frame | intros _].
  apply chan_send_flags.
Qed.

Lemma all_open_frame p w w' :
  brokers w' = brokers w → closed_flags w' = closed_flags w →
  all_open p w → all_open p w'.
Proof.
  intros Hb Hf Hopen b pl Hbp Hpl. rewrite Hb in Hbp.
  destruct (Hopen b pl Hbp Hpl) as (ch & Hch & Hcl).
  assert (closed_flags w' !! Input pl = Some false) as Hflag.
  { rewrite Hf. unfold closed_flags. by rewrite list_lookup_fmap, Hch, <- Hcl. }
  unfold closed_flags in Hflag. rewrite list_lookup_fmap in Hflag.
  destruct (chans w' !! Input pl) as [ch'|]; [|done].
  injection Hflag as Hflag. by exists ch'.
Qed.

(** Before any [SignalDone] the channels of the plugins are open, so that
    [SignalDone] returns. *)
Lemma dispatching_all_open returns p w :
  dispatching returns p w → all_open p w.
Proof.
  induction 1 as [fs logger paths w w' Hg Hload
                 | act result w o w' _ IH Hact Hsend
                 | i w w' _ IH Hstep].
  - by eapply LoadPlugins_all_open.
  - revert IH. apply all_open_frame.
    + apply (keeps_same_Ok brokers _ _ _ _
               (SendResult_with_keeps (same brokers) act (Some p) result
                  ltac:(frame) ltac:(intros; frame)
                  (λ k w, proj1 (Hact k w))) Hsend).
    + apply (keeps_same_Ok closed_flags _ _ _ _
               (SendResult_with_keeps (same closed_flags) act (Some p) result
                  ltac:(frame) (λ pl cl, deliver_flags pl result cl)
                  (λ k w, f_equal (fmap closed)
                            (proj2 (proj2 (Hact k w))))) Hsend).
  - apply worker_Ok in Hstep
      as (g & ch & p' & b' & Hg & Hph & Hch & Hret & Hp & Hb' & Hwg & ->).
    intros b pl Hb Hpl. simpl in *.
    destruct (decide (p' = p)) as [->|Hne].
    + rewrite list_lookup_insert_eq in Hb by by eapply lookup_lt_Some.
      injection Hb as <-. simpl in Hpl. by apply (IH b').
    + rewrite list_lookup_insert_ne in Hb by done. by apply (IH b).
Qed.

(** * Further properties of the code *)

Lemma bind_Panic {A B} (m : M A) (k : A → M B) w w1 :
  m w = (Panic, w1) → bind m k w = (Panic, w1).
Proof. unfold bind. by intros ->. Qed.

(** ** [Client.Do] *)

Lemma Response_CloneBody_nil_inner q w :
  responses w !! q = Some (MkResponse None) →
  Response_CloneBody (Some q) w
  = (Panic, set_httpResponses (λ l, l ++ [zero_HttpResponse]) w).
Proof.
  intros Hq. unfold Response_CloneBody, bind, alloc, load. simpl.
  by rewrite Hq.
Qed.

(** X1. [Do] hands on what the client of [net/http] returns, the response
    in a new wrapper.  The wrapper is there whatever the error, so a
    response that is [nil] because the exchange failed comes back as a
    wrapper that is not [nil]; [CloneBody] on that wrapper panics. *)
Theorem Client_Do_never_nil (hc : HttpClient) (req : nat) (rw : Request)
    (w w1 : World) (resp : ptr) (err : option error) :
  requests w !! req = Some rw →
  http_Client_Do hc (req_inner rw) w = (Ok (resp, err), w1) →
  let q := length (responses w1) in
  let w' := set_responses (λ l, l ++ [MkResponse resp]) w1 in
  Client_Do (Some (MkClient hc)) (Some req) w = (Ok (q, err), w')
  ∧ responses w' !! q = Some (MkResponse resp)
  ∧ (resp = None → (Response_CloneBody (Some q) w').1 = Panic).
Proof.
  intros Hrw Hdo q w'. split; [|split].
  - unfold Client_Do. simpl.
    erewrite bind_Ok by (unfold load; simpl; by rewrite Hrw).
    by erewrite bind_Ok by exact Hdo.
  - apply lookup_snoc_new.
  - intros ->. rewrite Response_CloneBody_nil_inner; [done|].
    apply lookup_snoc_new.
Qed.

(** The request at 0 of [ex_world], sent to a server that cannot be
    reached. *)
Lemma Client_Do_never_nil_witness :
  Client_Do (Some (MkClient ex_refused)) (Some 0%nat) ex_world
  = (Ok (1%nat, Some "connection refused"),
     set_responses (λ l, l ++ [MkResponse None]) ex_world)
  ∧ responses (set_responses (λ l, l ++ [MkResponse None]) ex_world) !! 1%nat
    = Some (MkResponse None)
  ∧ (None = (None : ptr) →
     (Response_CloneBody (Some 1%nat)
        (set_responses (λ l, l ++ [MkResponse None]) ex_world)).1 = Panic).
Proof.
  apply (Client_Do_never_nil ex_refused 0 (MkRequest (Some 0%nat)) ex_world
           ex_world None (Some "connection refused")); reflexivity.
Defined.

(** ** After [SignalDone] *)

(** X2. Once [SignalDone] has returned on a broker with at least one
    plugin, a second [SignalDone] panics, as closing a closed channel does,
    and leaves the store as it is; and [SendResult] does not return [nil]
    any more, whatever the [Result]: sending on the closed channel of the
    first plugin panics, if the call gets that far. *)
Theorem after_SignalDone (act : Interference) (p : nat) (b : PluginBroker)
    (w w1 : World) (result : ptr) :
  brokers w !! p = Some b → plugins b ≠ [] →
  SignalDone (Some p) w = (Ok tt, w1) →
  SignalDone (Some p) w1 = (Panic, w1)
  ∧ (SendResult_with act (Some p) result w1).1 ≠ Ok tt
  ∧ (∀ cl wa, clone_pair result w1 = (Ok cl, wa) →
       (SendResult_with act (Some p) result w1).1 = Panic).
Proof.
  intros Hb Hne H.
  unfold SignalDone, bind at 1, load in H. simpl in H. rewrite Hb in H.
  destruct (close_all_closed _ _ _ H) as (Hall & _ & Hbr).
  destruct (plugins b) as [|pl rest] eqn:Hps; [done|].
  destruct (Hall pl) as (ch & Hch & Hcl); [by left|].
  assert (brokers w1 !! p = Some b) as Hb1 by by rewrite Hbr.
  split; [|split].
  - unfold SignalDone, bind, load. simpl. rewrite Hb1, Hps. simpl.
    apply bind_Panic. unfold chan_close. by rewrite Hch, Hcl.
  - unfold SendResult_with, bind at 1, load. simpl. rewrite Hb1, Hps. simpl.
    unfold bind at 1.
    destruct (clone_pair result w1) as [[cl| | |] wa] eqn:Hcl1; try done.
    unfold bind at 1.
    destruct (deliver pl result cl wa) as [[[]| | |] wb] eqn:Hd; try done.
    apply deliver_chans in Hd as (ch' & Hch' & Hopen & _).
    rewrite (keeps_same_Ok chans _ _ _ _ (clone_pair_chans result) Hcl1) in Hch'.
    congruence.
  - intros cl wa Hcl1.
    assert (∃ r res, result = Some r ∧ results wa !! r = Some res)
      as (r & res & -> & Hres).
    { rewrite (keeps_same_Ok results _ _ _ _ (clone_pair_results result) Hcl1).
      unfold clone_pair in Hcl1.
      apply bind_Ok_inv in Hcl1 as (res & wx & Hload & _).
      unfold load in Hload. destruct result as [r|]; [|done]. simpl in Hload.
      destruct (results w1 !! r) as [res'|] eqn:Hr; [|done].
      by exists r, res'. }
    unfold SendResult_with, bind at 1, load. simpl. rewrite Hb1, Hps. simpl.
    erewrite bind_Ok by exact Hcl1.
    unfold deliver, bind, modify, chan_send. simpl. rewrite Hres. simpl.
    rewrite list_lookup_insert_eq by by eapply lookup_lt_Some.
    simpl.
    rewrite (keeps_same_Ok chans _ _ _ _ (clone_pair_chans (Some r)) Hcl1).
    by rewrite Hch, Hcl.
Qed.

(** The five plugins of [ex_world5] and the [Result] at 0, which can be
    cloned. *)
Lemma after_SignalDone_witness :
  let w1 := (SignalDone (Some 0%nat) ex_world5).2 in
  SignalDone (Some 0%nat) w1 = (Panic, w1)
  ∧ (SendResult_with quiet (Some 0%nat) (Some 0%nat) w1).1 ≠ Ok tt
  ∧ (SendResult_with quiet (Some 0%nat) (Some 0%nat) w1).1 = Panic.
Proof.
  intros w1.
  destruct (after_SignalDone quiet 0 ex_broker5 ex_world5 w1 (Some 0%nat))
    as (H1 & H2 & H3).
  - reflexivity.
  - done.
  - vm_compute. reflexivity.
  - split; [exact H1|]. split; [exact H2|].
    destruct (clone_pair (Some 0%nat) w1) as [[cl| | |] wa] eqn:E.
    + exact (H3 cl wa eq_refl).
    + vm_compute in E. discriminate.
    + vm_compute in E. discriminate.
    + vm_compute in E. discriminate.
Defined.

(** ** A load that fails *)

Lemma load_all_first_failure fs logger good bad rest ls e :
  Forall2 (λ path l, load_listener fs logger path = Ok l) good ls →
  load_listener fs logger bad = Fail e →
  load_all fs logger (good ++ bad :: rest) = Fail e
  ∧ loaded_before fs logger (good ++ bad :: rest) = ls.
Proof.
  intros HF Hbad. induction HF as [|path l good ls Hl _ [IH1 IH2]]; simpl.
  - by rewrite Hbad.
  - by rewrite Hl, IH1, IH2.
Qed.

Lemma lookup_workers_for p ps i g :
  workers_for p ps !! i = Some g →
  ∃ pl, ps !! i = Some pl ∧ g_results g = Input pl ∧ g_phase g = Listening.
Proof.
  unfold workers_for. rewrite list_lookup_fmap.
  destruct (ps !! i) as [pl|]; [|done]. intros [= <-]. by exists pl.
Qed.

(** X3. Let the paths [good] load and the path [bad] after them fail with
    [e].  Then [LoadPlugins] returns [e], the error of the first path that
    fails, whatever comes after it on the list; and what it has started for
    the paths before stays behind: their channels, all open, their
    goroutines, all in [Listen], and the broker that is not returned.  No
    channel is closed on the way out, so a listener that returns when its
    channel is closed stays in [Listen]. *)
Theorem LoadPlugins_failure_leaves_workers (fs : PluginFiles)
    (logger : Logger) (good rest : list string) (bad : string)
    (ls : list Listener) (e : error) (w : World) :
  Forall2 (λ path l, load_listener fs logger path = Ok l) good ls →
  load_listener fs logger bad = Fail e →
  let p := length (brokers w) in
  let new := register_at (length (chans w)) ls in
  ∃ w',
    LoadPlugins fs logger (good ++ bad :: rest) w = (Fail e, w')
    ∧ chans w' = chans w ++ replicate (length good) new_chan
    ∧ goroutines w' = goroutines w ++ workers_for (Some p) new
    ∧ brokers w'
      = brokers w ++ [ {| plugins := new;
                          waitGroup := Z.of_nat (length good) |} ]
    ∧ (∀ i, (length (goroutines w) ≤ i < length (goroutines w) + length good)%nat →
         worker until_closed i w' = (Blocked, w')).
Proof.
  intros HF Hbad p new.
  destruct (load_all_first_failure fs logger good bad rest ls e HF Hbad)
    as [Hall Hlb].
  pose proof (Forall2_length _ _ _ HF) as Hlen.
  eexists. rewrite LoadPlugins_eq, Hall, Hlb. split; [reflexivity|].
  unfold LoadPlugins_world. simpl.
  split; [by rewrite Hlen|]. split; [done|]. split.
  { rewrite insert_snoc_new by done. by rewrite Hlen. }
  intros i Hi. fold p new.
  destruct (lookup_lt_is_Some_2 (workers_for (Some p) new)
              (i - length (goroutines w))) as [g Hg].
  { unfold workers_for, new.
    rewrite length_fmap, register_at_length. lia. }
  destruct (lookup_workers_for _ _ _ _ Hg) as (pl & Hpl & Hres & Hph).
  assert (pl ∈ new) as Hin by by eapply list_elem_of_lookup_2.
  apply register_at_range in Hin.
  unfold worker, bind, load. simpl.
  rewrite lookup_app_r by lia. rewrite Hg, Hph. simpl.
  rewrite Hres, lookup_app_r by lia.
  rewrite lookup_replicate_2 by lia. done.
Qed.

(** Two modules that load, then one without [New], then one that would
    make the loader panic. *)
Lemma LoadPlugins_failure_leaves_workers_witness :
  ∃ w',
    LoadPlugins ex_files ex_logger
      (["a.so"; "b.so"] ++ "nosym.so" :: ["wrongtype.so"]) ex_world
    = (Fail (lookup_error "New"), w')
    ∧ chans w' = chans ex_world ++ replicate 2 new_chan
    ∧ goroutines w'
      = goroutines ex_world
        ++ workers_for (Some 0%nat)
             (register_at 0 [MkListener 1; MkListener 2])
    ∧ brokers w'
      = brokers ex_world
        ++ [ {| plugins := register_at 0 [MkListener 1; MkListener 2];
                waitGroup := 2 |} ]
    ∧ (∀ i, (0 ≤ i < 0 + 2)%nat → worker until_closed i w' = (Blocked, w')).
Proof.
  apply (LoadPlugins_failure_leaves_workers ex_files ex_logger
           ["a.so"; "b.so"] ["wrongtype.so"] "nosym.so"
           [MkListener 1; MkListener 2] (lookup_error "New") ex_world).
  - repeat constructor.
  - reflexivity.
Defined.

(** ** The wait group *)

Lemma listening_pos gs i g :
  gs !! i = Some g → g_phase g = Listening → (0 < listening gs)%nat.
Proof. intros Hi Hph. rewrite (listening_insert gs i g Hi Hph). lia. Qed.

(** X4. In every store that a program reaches which loads its plugins and
    then uses the broker [p] it got, the counter of the wait group is the
    number of goroutines of plugins still in [Listen]; there is one
    goroutine per plugin, in the order of the plugins, with the listener
    and on the channel of its plugin, and no two plugins have the same
    channel; and no goroutine panics when it goes on: [Done] is called once
    per [Add], so the counter never becomes negative. *)
Theorem waitGroup_counts_listeners (returns : Listener → Chan → bool)
    (p : nat) (w : World) :
  reachable returns p w →
  ∃ b, brokers w !! p = Some b
       ∧ waitGroup b = Z.of_nat (listening (goroutines w))
       ∧ Forall2 (λ pl g, g_listener g = plugin_Listener pl
                          ∧ g_results g = Input pl ∧ g_broker g = Some p)
           (plugins b) (goroutines w)
       ∧ NoDup (Input <$> plugins b)
       ∧ (∀ i, (i < length (goroutines w))%nat →
            (worker returns i w).1 ≠ Panic).
Proof.
  intros (b & Hb & HF & Hcount & Hin & Hnd)%reachable_broker_inv.
  exists b. do 4 (split; [done|]).
  intros i [g Hg]%lookup_lt_is_Some_2.
  destruct (Forall2_lookup_r _ _ _ _ _ HF Hg) as (pl & Hpl & _ & Hres & Hgp).
  rewrite Forall_forall in Hin.
  destruct (lookup_lt_is_Some_2 (chans w) (Input pl)) as [ch Hch].
  { apply Hin. by eapply list_elem_of_lookup_2. }
  unfold worker, Done, bind, load, modify, block, panic. simpl.
  rewrite Hg. simpl.
  destruct (g_phase g) eqn:Hph; simpl; [|done].
  rewrite Hres, Hch. simpl.
  destruct (returns (g_listener g) ch); simpl; [|done].
  rewrite Hg. simpl. rewrite Hgp. simpl. rewrite Hb. simpl.
  pose proof (listening_pos _ _ _ Hg Hph).
  destruct (waitGroup b - 1 <? 0) eqn:Hwg; [lia|].
  simpl. by rewrite Hb.
Qed.

(** [ex_world5], as [LoadPlugins] has left it. *)
Lemma waitGroup_counts_listeners_witness :
  ∃ b, brokers ex_world5 !! 0%nat = Some b
       ∧ waitGroup b = Z.of_nat (listening (goroutines ex_world5))
       ∧ Forall2 (λ pl g, g_listener g = plugin_Listener pl
                          ∧ g_results g = Input pl ∧ g_broker g = Some 0%nat)
           (plugins b) (goroutines ex_world5)
       ∧ NoDup (Input <$> plugins b)
       ∧ (∀ i, (i < length (goroutines ex_world5))%nat →
            (worker until_closed i ex_world5).1 ≠ Panic).
Proof.
  apply (waitGroup_counts_listeners until_closed 0 ex_world5).
  apply (reach_LoadPlugins until_closed 0 ex_files ex_logger ex_paths5
           ex_world ex_world5).
  - reflexivity.
  - vm_compute. reflexivity.
Defined.

(** ** [SignalDone] in its place *)

(** X5. Before the first [SignalDone], in every store that a program
    reaches which loads its plugins, sends results and lets the goroutines
    of the plugins run, the channel of every plugin is open; so
    [SignalDone] returns there, and has closed them all. *)
Theorem SignalDone_returns_after_dispatch (returns : Listener → Chan → bool)
    (p : nat) (w : World) :
  dispatching returns p w →
  all_open p w
  ∧ ∃ w', SignalDone (Some p) w = (Ok tt, w') ∧ all_closed p w'.
Proof.
  intros Hd. pose proof (dispatching_all_open _ _ _ Hd) as Hopen.
  split; [done|].
  destruct (reachable_broker_inv _ _ _ (dispatching_reachable _ _ _ Hd))
    as (b & Hb & _ & _ & _ & Hnd).
  destruct (close_all_Ok (plugins b) w Hnd (λ pl, Hopen b pl Hb)) as [w' Hw'].
  exists w'. split.
  - unfold SignalDone, bind at 1, load. simpl. by rewrite Hb.
  - destruct (close_all_closed _ _ _ Hw') as (Hall & _ & Hbr).
    intros b' pl Hb' Hpl. rewrite Hbr, Hb in Hb'. injection Hb' as <-.
    by apply Hall.
Qed.

(** [ex_world5] after a [SendResult] of the [Result] at 0. *)
Lemma SignalDone_returns_after_dispatch_witness :
  let w := (SendResult (Some 0%nat) (Some 0%nat) ex_world5).2 in
  all_open 0 w
  ∧ ∃ w', SignalDone (Some 0%nat) w = (Ok tt, w') ∧ all_closed 0 w'.
Proof.
  intros w.
  apply (SignalDone_returns_after_dispatch until_closed 0 w).
  apply (disp_SendResult until_closed 0 quiet (Some 0%nat) ex_world5
           (SendResult (Some 0%nat) (Some 0%nat) ex_world5).1 w).
  - apply (disp_LoadPlugins until_closed 0 ex_files ex_logger ex_paths5
             ex_world ex_world5).
    + reflexivity.
    + vm_compute. reflexivity.
  - done.
  - subst w. unfold SendResult. apply surjective_pairing.
Defined.

(** ** A body that cannot be read to the end *)





(** ** The clone and the original *)

Lemma ReadAll_reader w b bs :
  streams w !! b = Some (bytes_reader bs) →
  ReadAll (Some b) w
  = (Ok bs, set_streams (λ l, <[b := bytes_reader []]> l) w).
Proof.
  intros Hb. unfold ReadAll, bind, load, modify. simpl. rewrite Hb. simpl.
  by rewrite Hb.
Qed.

Lemma Header_Set_headers h key value w :
  headers (Header_Set h key value w).2
  = match h with
    | Some l =>
        match headers w !! l with
        | Some m => <[l := <[key := [value]]> m]> (headers w)
        | None => headers w
        end
    | None => headers w
    end.
Proof.
  unfold Header_Set, modify. destruct h as [l|]; [|done]. simpl.
  by destruct (headers w !! l).
Qed.

(** X7. What [Request.CloneBody] returns for a request whose body can be
    read is a request of its own: its header map has the entries of the
    original's and is another map, so that a header set on either does not
    show on the other; and its body is another reader over the same bytes,
    so that reading either to the end leaves the other to be read in
    full. *)
Theorem Request_clone_is_independent (w : World) (r : nat) (ctx : Context)
    (rq : HttpRequest) (bs : list byte) :
  Request_view w r = Some rq →
  valid (headers w) (rq_Header rq) → valid (headers w) (rq_Trailer rq) →
  body_bytes w (rq_Body rq) = Some bs →
  let c := length (requests w) in
  ∃ w' cq oq,
    Request_CloneBody (Some r) ctx w = (Ok c, w')
    ∧ Request_view w' c = Some cq ∧ Request_view w' r = Some oq
    ∧ rq_ctx cq = ctx
    ∧ deref (headers w') (rq_Header cq) = deref (headers w) (rq_Header rq)
    ∧ deref (headers w') (rq_Header oq) = deref (headers w) (rq_Header rq)
    ∧ (∀ key value,
         let w2 := (Header_Set (rq_Header cq) key value w').2 in
         deref (headers w2) (rq_Header oq) = deref (headers w) (rq_Header rq))
    ∧ (∀ key value,
         let w2 := (Header_Set (rq_Header oq) key value w').2 in
         deref (headers w2) (rq_Header cq) = deref (headers w) (rq_Header rq))
    ∧ (∃ w2, ReadAll (rq_Body cq) w' = (Ok bs, w2)
             ∧ Request_bytes w2 c = Some [] ∧ Request_bytes w2 r = Some bs)
    ∧ (∃ w2, ReadAll (rq_Body oq) w' = (Ok bs, w2)
             ∧ Request_bytes w2 r = Some [] ∧ Request_bytes w2 c = Some bs).
Proof.
  intros Hview Hh Ht Hbytes c.
  apply body_bytes_inv in Hbytes as (b & s & Eb & Hs & Hf & <-).
  apply Request_view_inv in Hview as (rw & i & Hr & Hi & Hrq).
  pose proof (lookup_lt_Some _ _ _ Hr) as Hrlt.
  pose proof (lookup_lt_Some _ _ _ Hrq) as Hilt.
  pose proof (lookup_lt_Some _ _ _ Hs) as Hblt.
  set (ns := length (streams w)).
  set (cq := cloned_HttpRequest w rq ctx (Some (S ns))).
  set (oq := with_rq_Body (Some ns) rq).
  set (w' := Request_CloneBody_world w i rq s ctx).
  assert (requests w' !! c = Some (MkRequest (Some (length (httpRequests w)))))
    as Hc.
  { subst w'. unfold Request_CloneBody_world. rewrite Eb. simpl.
    apply lookup_snoc_new. }
  assert (requests w' !! r = Some rw) as Hr'.
  { subst w'. unfold Request_CloneBody_world. rewrite Eb. simpl.
    by apply lookup_app_l_Some. }
  assert (httpRequests w' !! length (httpRequests w) = Some cq) as Hcq.
  { subst w'. unfold Request_CloneBody_world. rewrite Eb. simpl.
    rewrite lookup_app_r by (rewrite length_insert; lia).
    by rewrite length_insert, Nat.sub_diag. }
  assert (httpRequests w' !! i = Some oq) as Hoq.
  { subst w'. unfold Request_CloneBody_world. rewrite Eb. simpl.
    apply lookup_app_l_Some. by apply list_lookup_insert_eq. }
  assert (streams w' !! ns = Some (bytes_reader (pending s))) as Hso.
  { subst w'. unfold Request_CloneBody_world. rewrite Eb. simpl.
    rewrite lookup_app_r by (rewrite length_insert; lia).
    by rewrite length_insert, Nat.sub_diag. }
  assert (streams w' !! S ns = Some (bytes_reader (pending s))) as Hsc.
  { subst w'. unfold Request_CloneBody_world. rewrite Eb. simpl.
    rewrite lookup_app_r by (rewrite length_insert; lia).
    rewrite length_insert.
    by replace (S ns - length (streams w))%nat with 1%nat by (subst ns; lia). }
  assert (headers w'
          = headers w ++ header_copies w (rq_Header rq)
                      ++ header_copies w (rq_Trailer rq)) as Hhs.
  { subst w'. unfold Request_CloneBody_world. by rewrite Eb. }
  assert (deref (headers w') (rq_Header cq) = deref (headers w) (rq_Header rq))
    as Hch.
  { rewrite Hhs. subst cq. simpl. by apply deref_cloned_ptr. }
  assert (deref (headers w') (rq_Header oq) = deref (headers w) (rq_Header rq))
    as Hoh.
  { rewrite Hhs. subst oq. simpl. destruct (rq_Header rq) as [h|]; [|done].
    simpl in *. by rewrite lookup_app_l. }
  exists w', cq, oq.
  split; [by apply (Request_CloneBody_eq w r rw i rq ctx s); auto; left;
          rewrite Eb|].
  split; [unfold Request_view; by rewrite Hc; simpl|].
  split; [unfold Request_view; rewrite Hr'; simpl; by rewrite Hi|].
  split; [done|]. split; [done|]. split; [done|].
  split; [|split; [|split]].
  - intros key value w2. subst w2. rewrite <- Hoh. unfold deref.
    rewrite Header_Set_headers. subst cq oq. simpl.
    destruct (rq_Header rq) as [h|]; simpl; [|done]. simpl in Hh.
    destruct (headers w' !! length (headers w)); [|done].
    rewrite list_lookup_insert_ne by lia. done.
  - intros key value w2. subst w2. rewrite <- Hch. unfold deref.
    rewrite Header_Set_headers. subst cq oq. simpl.
    destruct (rq_Header rq) as [h|]; simpl; [|done]. simpl in Hh.
    destruct (headers w' !! h); [|done].
    rewrite list_lookup_insert_ne by lia. done.
  - eexists. split; [subst cq; simpl; by apply ReadAll_reader|]. split.
    + apply (Request_bytes_intro _ c
               (MkRequest (Some (length (httpRequests w))))
               (length (httpRequests w)) cq (S ns) (bytes_reader []));
        try done.
      simpl. apply list_lookup_insert_eq. by eapply lookup_lt_Some.
    + apply (Request_bytes_intro _ r rw i oq ns (bytes_reader (pending s)));
        try done.
      simpl. by rewrite list_lookup_insert_ne by lia.
  - eexists. split; [subst oq; simpl; by apply ReadAll_reader|]. split.
    + apply (Request_bytes_intro _ r rw i oq ns (bytes_reader []));
        try done.
      simpl. apply list_lookup_insert_eq. by eapply lookup_lt_Some.
    + apply (Request_bytes_intro _ c
               (MkRequest (Some (length (httpRequests w))))
               (length (httpRequests w)) cq (S ns)
               (bytes_reader (pending s))); try done.
      simpl. by rewrite list_lookup_insert_ne by lia.
Qed.

(** The request with the body ["abc"] of [ex_world]. *)
Lemma Request_clone_is_independent_witness :
  ∃ w' cq oq,
    Request_CloneBody (Some 0%nat) (OtherContext 7) ex_world = (Ok 2%nat, w')
    ∧ Request_view w' 2 = Some cq ∧ Request_view w' 0 = Some oq
    ∧ rq_ctx cq = OtherContext 7
    ∧ deref (headers w') (rq_Header cq)
      = deref (headers ex_world) (rq_Header ex_request)
    ∧ deref (headers w') (rq_Header oq)
      = deref (headers ex_world) (rq_Header ex_request)
    ∧ (∀ key value,
         let w2 := (Header_Set (rq_Header cq) key value w').2 in
         deref (headers w2) (rq_Header oq)
         = deref (headers ex_world) (rq_Header ex_request))
    ∧ (∀ key value,
         let w2 := (Header_Set (rq_Header oq) key value w').2 in
         deref (headers w2) (rq_Header cq)
         = deref (headers ex_world) (rq_Header ex_request))
    ∧ (∃ w2, ReadAll (rq_Body cq) w' = (Ok ["a"; "b"; "c"]%byte, w2)
             ∧ Request_bytes w2 2 = Some []
             ∧ Request_bytes w2 0 = Some ["a"; "b"; "c"]%byte)
    ∧ (∃ w2, ReadAll (rq_Body oq) w' = (Ok ["a"; "b"; "c"]%byte, w2)
             ∧ Request_bytes w2 0 = Some []
             ∧ Request_bytes w2 2 = Some ["a"; "b"; "c"]%byte).
Proof.
  apply (Request_clone_is_independent ex_world 0 (OtherContext 7) ex_request
           ["a"; "b"; "c"]%byte); simpl; try reflexivity; lia.
Defined.

(** X8. The same for [Response.CloneBody]: the clone of a response whose
    body can be read has a header map and a body reader of its own, with
    the entries and the bytes of the original's. *)
Theorem Response_clone_is_independent (w : World) (q : nat)
    (rs : HttpResponse) (bs : list byte) :
  Response_view w q = Some rs →
  valid (headers w) (rs_Header rs) → valid (headers w) (rs_Trailer rs) →
  body_bytes w (rs_Body rs) = Some bs →
  let c := length (responses w) in
  ∃ w' cs os,
    Response_CloneBody (Some q) w = (Ok c, w')
    ∧ Response_view w' c = Some cs ∧ Response_view w' q = Some os
    ∧ deref (headers w') (rs_Header cs) = deref (headers w) (rs_Header rs)
    ∧ deref (headers w') (rs_Header os) = deref (headers w) (rs_Header rs)
    ∧ (∀ key value,
         let w2 := (Header_Set (rs_Header cs) key value w').2 in
         deref (headers w2) (rs_Header os) = deref (headers w) (rs_Header rs))
    ∧ (∀ key value,
         let w2 := (Header_Set (rs_Header os) key value w').2 in
         deref (headers w2) (rs_Header cs) = deref (headers w) (rs_Header rs))
    ∧ (∃ w2, ReadAll (rs_Body cs) w' = (Ok bs, w2)
             ∧ Response_bytes w2 c = Some [] ∧ Response_bytes w2 q = Some bs)
    ∧ (∃ w2, ReadAll (rs_Body os) w' = (Ok bs, w2)
             ∧ Response_bytes w2 q = Some [] ∧ Response_bytes w2 c = Some bs).
Proof.
  intros Hview Hh Ht Hbytes c.
  apply body_bytes_inv in Hbytes as (b & s & Eb & Hs & Hf & <-).
  apply Response_view_inv in Hview as (rw & i & Hr & Hi & Hrs).
  pose proof (lookup_lt_Some _ _ _ Hr) as Hrlt.
  pose proof (lookup_lt_Some _ _ _ Hrs) as Hilt.
  pose proof (lookup_lt_Some _ _ _ Hs) as Hblt.
  set (ns := length (streams w)).
  set (cs := cloned_HttpResponse w rs).
  set (os := with_rs_Body (Some ns) rs).
  set (w' := Response_CloneBody_world w i b rs s).
  assert (responses w' !! c = Some (MkResponse (Some (length (httpResponses w)))))
    as Hc by apply lookup_snoc_new.
  assert (responses w' !! q = Some rw) as Hr' by by apply lookup_app_l_Some.
  assert (httpResponses w' !! length (httpResponses w) = Some cs) as Hcs.
  { simpl. rewrite lookup_app_r by (rewrite length_insert; lia).
    by rewrite length_insert, Nat.sub_diag. }
  assert (httpResponses w' !! i = Some os) as Hos.
  { simpl. apply lookup_app_l_Some. by apply list_lookup_insert_eq. }
  assert (streams w' !! ns = Some (bytes_reader (pending s))) as Hso.
  { simpl. rewrite lookup_app_r by (rewrite length_insert; lia).
    by rewrite length_insert, Nat.sub_diag. }
  assert (streams w' !! S ns = Some (bytes_reader (pending s))) as Hsc.
  { simpl. rewrite lookup_app_r by (rewrite length_insert; lia).
    rewrite length_insert.
    by replace (S ns - length (streams w))%nat with 1%nat by (subst ns; lia). }
  assert (deref (headers w') (rs_Header cs) = deref (headers w) (rs_Header rs))
    as Hch by by apply deref_cloned_ptr.
  assert (deref (headers w') (rs_Header os) = deref (headers w) (rs_Header rs))
    as Hoh.
  { simpl. destruct (rs_Header rs) as [h|]; [|done].
    simpl in *. by rewrite lookup_app_l. }
  exists w', cs, os.
  split; [by apply (Response_CloneBody_eq w q rw i rs b s)|].
  split; [unfold Response_view; by rewrite Hc; simpl|].
  split; [unfold Response_view; rewrite Hr'; simpl; by rewrite Hi|].
  split; [done|]. split; [done|].
  split; [|split; [|split]].
  - intros key value w2. subst w2. rewrite <- Hoh. unfold deref.
    rewrite Header_Set_headers. subst cs os. simpl.
    destruct (rs_Header rs) as [h|]; simpl; [|done]. simpl in Hh.
    destruct (_ !! length (headers w)); [|done].
    rewrite list_lookup_insert_ne by lia. done.
  - intros key value w2. subst w2. rewrite <- Hch. unfold deref.
    rewrite Header_Set_headers. subst cs os. simpl.
    destruct (rs_Header rs) as [h|]; simpl; [|done]. simpl in Hh.
    destruct (_ !! h); [|done].
    rewrite list_lookup_insert_ne by lia. done.
  - eexists. split; [subst cs; simpl; by apply ReadAll_reader|]. split.
    + apply (Response_bytes_intro _ c
               (MkResponse (Some (length (httpResponses w))))
               (length (httpResponses w)) cs (S ns) (bytes_reader []));
        try done.
      simpl. apply list_lookup_insert_eq. by eapply lookup_lt_Some.
    + apply (Response_bytes_intro _ q rw i os ns (bytes_reader (pending s)));
        try done.
      simpl. by rewrite list_lookup_insert_ne by lia.
  - eexists. split; [subst os; simpl; by apply ReadAll_reader|]. split.
    + apply (Response_bytes_intro _ q rw i os ns (bytes_reader []));
        try done.
      simpl. apply list_lookup_insert_eq. by eapply lookup_lt_Some.
    + apply (Response_bytes_intro _ c
               (MkResponse (Some (length (httpResponses w))))
               (length (httpResponses w)) cs (S ns)
               (bytes_reader (pending s))); try done.
      simpl. by rewrite list_lookup_insert_ne by lia.
Qed.

(** The response with the body ["xyz"] of [ex_world]. *)
Lemma Response_clone_is_independent_witness :
  ∃ w' cs os,
    Response_CloneBody (Some 0%nat) ex_world = (Ok 1%nat, w')
    ∧ Response_view w' 1 = Some cs ∧ Response_view w' 0 = Some os
    ∧ deref (headers w') (rs_Header cs)
      = deref (headers ex_world) (rs_Header ex_response)
    ∧ deref (headers w') (rs_Header os)
      = deref (headers ex_world) (rs_Header ex_response)
    ∧ (∀ key value,
         let w2 := (Header_Set (rs_Header cs) key value w').2 in
         deref (headers w2) (rs_Header os)
         = deref (headers ex_world) (rs_Header ex_response))
    ∧ (∀ key value,
         let w2 := (Header_Set (rs_Header os) key value w').2 in
         deref (headers w2) (rs_Header cs)
         = deref (headers ex_world) (rs_Header ex_response))
    ∧ (∃ w2, ReadAll (rs_Body cs) w' = (Ok ["x"; "y"; "z"]%byte, w2)
             ∧ Response_bytes w2 1 = Some []
             ∧ Response_bytes w2 0 = Some ["x"; "y"; "z"]%byte)
    ∧ (∃ w2, ReadAll (rs_Body os) w' = (Ok ["x"; "y"; "z"]%byte, w2)
             ∧ Response_bytes w2 0 = Some []
             ∧ Response_bytes w2 1 = Some ["x"; "y"; "z"]%byte).
Proof.
  apply (Response_clone_is_independent ex_world 0 ex_response
           ["x"; "y"; "z"]%byte); simpl; try reflexivity; lia.
Defined.

(** ** A [SendResult] that goes through *)

Lemma valid_cloned_ptr {A} (l ex : list A) (h : ptr) :
  valid l h →
  valid (l ++ option_list (deref l h) ++ ex) (cloned_ptr (length l) h).
Proof.
  destruct h as [i|]; simpl; [|done].
  intros Hi. apply lookup_lt_is_Some_2 in Hi as [x Hx].
  rewrite Hx. simpl. rewrite length_app. simpl. lia.
Qed.

Lemma valid_cloned_ptr_2 {A} (l : list A) (h t : ptr) :
  valid l t →
  valid (l ++ option_list (deref l h) ++ option_list (deref l t))
    (cloned_ptr (length l + length (option_list (deref l h))) t).
Proof.
  destruct t as [i|]; simpl; [|done].
  intros Hi. apply lookup_lt_is_Some_2 in Hi as [x Hx].
  rewrite Hx. simpl. rewrite !length_app. simpl. lia.
Qed.

Lemma valid_app {A} (l ex : list A) (h : ptr) :
  valid l h → valid (l ++ ex) h.
Proof. destruct h; simpl; [|done]. rewrite length_app. lia. Qed.

Lemma valid_le {A} (l l' : list A) (h : ptr) :
  (length l ≤ length l')%nat → valid l h → valid l' h.
Proof. destruct h; simpl; [|done]. lia. Qed.

(** [Request.CloneBody] on a request that can be cloned: the clone can be
    cloned in its turn and reads the same, and what the call leaves
    alone. *)
Lemma Request_CloneBody_clonable w r ctx :
  Request_clonable w r →
  ∃ w' cq,
    Request_CloneBody (Some r) ctx w = (Ok (length (requests w)), w')
    ∧ Request_view w' (length (requests w)) = Some cq
    ∧ rq_ctx cq = ctx
    ∧ valid (headers w') (rq_Header cq) ∧ valid (headers w') (rq_Trailer cq)
    ∧ (rq_Body cq = None
       ∨ ∃ cb, rq_Body cq = Some cb ∧ (length (streams w) ≤ cb)%nat
               ∧ is_Some (body_bytes w' (Some cb)))
    ∧ Request_bytes w' (length (requests w)) = Request_bytes w r
    ∧ responses w' = responses w ∧ httpResponses w' = httpResponses w
    ∧ results w' = results w ∧ chans w' = chans w ∧ brokers w' = brokers w
    ∧ goroutines w' = goroutines w
    ∧ (length (headers w) ≤ length (headers w'))%nat
    ∧ (∀ b' s', streams w !! b' = Some s' →
         (∀ rq, Request_view w r = Some rq → rq_Body rq ≠ Some b') →
         streams w' !! b' = Some s').
Proof.
  intros (rq & Hview & Hh & Ht & Hbody).
  pose proof Hview as Hv.
  apply Request_view_inv in Hv as (rw & i & Hr & Hi & Hrq).
  pose proof (lookup_lt_Some _ _ _ Hrq) as Hilt.
  destruct (rq_Body rq) as [b|] eqn:Eb.
  - destruct Hbody as [|[bs Hbs]]; [done|].
    apply body_bytes_inv in Hbs as (b0 & s & [= <-] & Hs & Hf & <-).
    pose proof (lookup_lt_Some _ _ _ Hs) as Hblt.
    exists (Request_CloneBody_world w i rq s ctx),
      (cloned_HttpRequest w rq ctx (Some (S (length (streams w))))).
    split.
    { apply (Request_CloneBody_eq w r rw i rq ctx s); auto.
      left. by rewrite Eb. }
    unfold Request_CloneBody_world. rewrite Eb. simpl.
    assert ((<[b:=drained s]> (streams w)
             ++ [bytes_reader (pending s); bytes_reader (pending s)])
            !! S (length (streams w)) = Some (bytes_reader (pending s))) as Hsc.
    { rewrite lookup_app_r by (rewrite length_insert; lia).
      rewrite length_insert.
      by replace (S (length (streams w)) - length (streams w))%nat
        with 1%nat by lia. }
    split.
    { unfold Request_view. simpl. rewrite lookup_snoc_new. simpl.
      rewrite lookup_app_r by (rewrite length_insert; lia).
      by rewrite length_insert, Nat.sub_diag. }
    split; [done|]. split; [by apply valid_cloned_ptr|].
    split; [by apply valid_cloned_ptr_2|].
    split.
    { right. exists (S (length (streams w))). split; [done|]. split; [lia|].
      unfold body_bytes. simpl. rewrite Hsc. simpl. by eexists. }
    split.
    { unfold Request_bytes at 1, Request_view. simpl.
      rewrite lookup_snoc_new. simpl.
      rewrite lookup_app_r by (rewrite length_insert; lia).
      rewrite length_insert, Nat.sub_diag. simpl.
      unfold body_bytes. simpl. rewrite Hsc. simpl.
      symmetry.
      by apply (Request_bytes_intro w r rw i rq b s). }
    repeat (split; [done|]).
    split; [rewrite length_app; lia|].
    intros b' s' Hs' Hne.
    apply lookup_app_l_Some. rewrite list_lookup_insert_ne; [done|].
    intros ->. by apply (Hne rq).
  - exists (Request_CloneBody_world w i rq (bytes_reader []) ctx),
      (cloned_HttpRequest w rq ctx None).
    split.
    { apply (Request_CloneBody_eq w r rw i rq ctx); auto. }
    unfold Request_CloneBody_world. rewrite Eb. simpl.
    split.
    { unfold Request_view. simpl. rewrite lookup_snoc_new. simpl.
      apply lookup_snoc_new. }
    split; [done|]. split; [by apply valid_cloned_ptr|].
    split; [by apply valid_cloned_ptr_2|].
    split; [by left|].
    split.
    { unfold Request_bytes, Request_view. simpl.
      rewrite lookup_snoc_new. simpl. rewrite lookup_snoc_new. simpl.
      rewrite Hr. simpl. rewrite Hi. simpl. rewrite Hrq. simpl.
      by rewrite Eb. }
    repeat (split; [done|]).
    split; [rewrite length_app; lia|].
    by intros b' s' Hs' _.
Qed.

Lemma Response_CloneBody_clonable w q :
  Response_clonable w q →
  ∃ w' cs cb,
    Response_CloneBody (Some q) w = (Ok (length (responses w)), w')
    ∧ Response_view w' (length (responses w)) = Some cs
    ∧ valid (headers w') (rs_Header cs) ∧ valid (headers w') (rs_Trailer cs)
    ∧ rs_Body cs = Some cb ∧ (length (streams w) ≤ cb)%nat
    ∧ is_Some (body_bytes w' (Some cb))
    ∧ Response_bytes w' (length (responses w)) = Response_bytes w q
    ∧ requests w' = requests w ∧ httpRequests w' = httpRequests w
    ∧ results w' = results w ∧ chans w' = chans w ∧ brokers w' = brokers w
    ∧ goroutines w' = goroutines w
    ∧ (length (headers w) ≤ length (headers w'))%nat
    ∧ (∀ b' s', streams w !! b' = Some s' →
         (∀ rs, Response_view w q = Some rs → rs_Body rs ≠ Some b') →
         streams w' !! b' = Some s').
Proof.
  intros (rs & Hview & Hh & Ht & [bs Hbs]).
  pose proof Hview as Hv.
  apply Response_view_inv in Hv as (rw & i & Hr & Hi & Hrs).
  pose proof (lookup_lt_Some _ _ _ Hrs) as Hilt.
  apply body_bytes_inv in Hbs as (b & s & Eb & Hs & Hf & <-).
  pose proof (lookup_lt_Some _ _ _ Hs) as Hblt.
  exists (Response_CloneBody_world w i b rs s), (cloned_HttpResponse w rs),
    (S (length (streams w))).
  split; [by apply (Response_CloneBody_eq w q rw i rs b s)|].
  simpl.
  assert ((<[b:=drained s]> (streams w)
           ++ [bytes_reader (pending s); bytes_reader (pending s)])
          !! S (length (streams w)) = Some (bytes_reader (pending s))) as Hsc.
  { rewrite lookup_app_r by (rewrite length_insert; lia).
    rewrite length_insert.
    by replace (S (length (streams w)) - length (streams w))%nat
      with 1%nat by lia. }
  split.
  { unfold Response_view. simpl. rewrite lookup_snoc_new. simpl.
    rewrite lookup_app_r by (rewrite length_insert; lia).
    by rewrite length_insert, Nat.sub_diag. }
  split; [by apply valid_cloned_ptr|].
  split; [by apply valid_cloned_ptr_2|].
  split; [done|]. split; [lia|].
  split; [unfold body_bytes; simpl; rewrite Hsc; simpl; by eexists|].
  split.
  { unfold Response_bytes at 1, Response_view. simpl.
    rewrite lookup_snoc_new. simpl.
    rewrite lookup_app_r by (rewrite length_insert; lia).
    rewrite length_insert, Nat.sub_diag. simpl.
    unfold body_bytes. simpl. rewrite Hsc. simpl.
    symmetry. by apply (Response_bytes_intro w q rw i rs b s). }
  repeat (split; [done|]).
  split; [rewrite length_app; lia|].
  intros b' s' Hs' Hne.
  apply lookup_app_l_Some. rewrite list_lookup_insert_ne; [done|].
  intros ->. by apply (Hne rs).
Qed.

Lemma body_bytes_frame w w' b :
  (∀ l s, b = Some l → streams w !! l = Some s → streams w' !! l = Some s) →
  is_Some (body_bytes w b) → body_bytes w' b = body_bytes w b.
Proof.
  intros Hfr [bs Hbs]. rewrite Hbs.
  apply body_bytes_inv in Hbs as (l & s & -> & Hs & Hf & <-).
  unfold body_bytes. simpl. rewrite (Hfr l s eq_refl Hs). simpl.
  by rewrite Hf.
Qed.

(** The head of the loop body of [SendResult] on a pair that can be
    cloned. *)
Lemma clone_pair_clonable w r res req resp :
  results w !! r = Some res →
  Request_ res = Some req → Response_ res = Some resp →
  pair_clonable w req resp →
  ∃ w',
    clone_pair (Some r) w
    = (Ok (length (requests w), length (responses w)), w')
    ∧ pair_clonable w' (length (requests w)) (length (responses w))
    ∧ Request_bytes w' (length (requests w)) = Request_bytes w req
    ∧ Response_bytes w' (length (responses w)) = Response_bytes w resp
    ∧ Request_ctx w' (length (requests w)) = Some Background
    ∧ results w' = results w ∧ chans w' = chans w ∧ brokers w' = brokers w
    ∧ goroutines w' = goroutines w.
Proof.
  intros Hres Hreq Hresp (Hrq & Hrs & Hdist).
  destruct (Request_CloneBody_clonable w req Background Hrq)
    as (w1 & cq & Hrun1 & Hcq & Hctx & Hh1 & Ht1 & Hb1 & Hbytes1 & Hresp1
        & Hhresp1 & Hres1 & Hch1 & Hbr1 & Hg1 & Hlen1 & Hfr1).
  destruct Hrs as (rs & Hview & Hh & Ht & Hbs).
  assert (Response_view w1 resp = Some rs) as Hview1.
  { unfold Response_view. rewrite Hresp1, Hhresp1. exact Hview. }
  assert (body_bytes w1 (rs_Body rs) = body_bytes w (rs_Body rs)) as Hbb1.
  { apply body_bytes_frame; [|done]. intros l s El Hs.
    apply (Hfr1 l s Hs). intros rq Hrqv. rewrite <- El. by apply Hdist. }
  assert (Response_bytes w1 resp = Response_bytes w resp) as Hrb1.
  { unfold Response_bytes. rewrite Hview1, Hview. simpl. exact Hbb1. }
  assert (Response_clonable w1 resp) as Hrs1.
  { exists rs. split; [done|].
    split; [by eapply valid_le|]. split; [by eapply valid_le|].
    by rewrite Hbb1. }
  destruct (Response_CloneBody_clonable w1 resp Hrs1)
    as (w2 & cs & cb & Hrun2 & Hcs & Hh2 & Ht2 & Eb2 & Hcb & Hbb2 & Hbytes2
        & Hreq2 & Hhreq2 & Hres2 & Hch2 & Hbr2 & Hg2 & Hlen2 & Hfr2).
  rewrite Hresp1 in Hrun2, Hcs, Hbytes2.
  destruct Hbs as [bs Hbs].
  apply body_bytes_inv in Hbs as (b' & s' & Eb' & Hs' & Hf' & _).
  apply lookup_lt_Some in Hs'.
  assert (Request_view w2 (length (requests w)) = Some cq) as Hcq2.
  { unfold Request_view. rewrite Hreq2, Hhreq2. exact Hcq. }
  assert (body_bytes w2 (rq_Body cq) = body_bytes w1 (rq_Body cq)) as Hcb2.
  { destruct Hb1 as [->|(cb1 & -> & Hcb1 & Hsome)]; [done|].
    apply body_bytes_frame; [|done]. intros l s [= <-] Hs.
    apply (Hfr2 _ s Hs). intros rs0 Hrs0. rewrite Hview1 in Hrs0.
    injection Hrs0 as <-. rewrite Eb'. intros [= ->]. lia. }
  exists w2. split.
  { unfold clone_pair.
    erewrite bind_Ok by (unfold load; simpl; by rewrite Hres).
    rewrite Hreq. erewrite bind_Ok by exact Hrun1.
    erewrite bind_Ok by (unfold load; simpl; by rewrite Hres1, Hres).
    rewrite Hresp. by erewrite bind_Ok by exact Hrun2. }
  split.
  { split; [|split].
    - exists cq. split; [done|].
      split; [by eapply valid_le|]. split; [by eapply valid_le|].
      destruct Hb1 as [Hnone|(cb1 & Ecb1 & Hcb1 & Hsome)]; [by left|].
      right. rewrite Hcb2, Ecb1. exact Hsome.
    - exists cs. by rewrite Eb2.
    - intros rq0 rs0 Hrq0 Hrs0. rewrite Hcq2 in Hrq0. rewrite Hcs in Hrs0.
      injection Hrq0 as <-. injection Hrs0 as <-. rewrite Eb2.
      destruct Hb1 as [->|(cb1 & -> & Hcb1 & [bs1 Hbs1])]; [done|].
      apply body_bytes_inv in Hbs1 as (l & s1 & [= <-] & Hs1 & _).
      apply lookup_lt_Some in Hs1. intros [= ->]. lia. }
  split.
  { rewrite <- Hbytes1. unfold Request_bytes. rewrite Hcq2, Hcq. simpl.
    exact Hcb2. }
  split; [by rewrite Hbytes2|].
  split; [unfold Request_ctx; rewrite Hcq2; simpl; by rewrite Hctx|].
  repeat split; congruence.
Qed.

Lemma deliver_eq pl r cl w res ch :
  results w !! r = Some res →
  chans w !! Input pl = Some ch → closed ch = false →
  deliver pl (Some r) cl w
  = (Ok tt,
     MkWorld (streams w) (headers w) (httpRequests w) (httpResponses w)
       (requests w) (responses w)
       (<[r := with_Response (Some cl.2) (with_Request (Some cl.1) res)]>
          (results w))
       (<[Input pl := {| closed := false; handed := handed ch ++ [Some r] |}]>
          (chans w))
       (brokers w) (goroutines w)).
Proof.
  intros Hres Hch Hcl. unfold deliver, bind, modify, chan_send. simpl.
  rewrite Hres. simpl.
  rewrite list_lookup_insert_eq by by eapply lookup_lt_Some.
  simpl. rewrite Hch, Hcl. f_equal.
  apply World_ext; simpl; try done.
  by rewrite list_insert_insert_eq.
Qed.

(** The loop of [SendResult] on a [Result] whose pair can be cloned, with
    the channels of the plugins open; [I] is a property of the store and of
    the pair the [Result] refers to that the clones of a turn keep,
    whatever becomes of the results and of the channels. *)
Lemma SendResult_loop_succeeds (I : World → nat → nat → Prop) r ps :
  (∀ w c c' w1 rs' cs',
     I w c c' → pair_clonable w c c' →
     Result_refs w r = Some (Some c, Some c') →
     clone_pair (Some r) w
     = (Ok (length (requests w), length (responses w)), w1) →
     I (MkWorld (streams w1) (headers w1) (httpRequests w1)
          (httpResponses w1) (requests w1) (responses w1) rs' cs'
          (brokers w1) (goroutines w1))
       (length (requests w)) (length (responses w))) →
  ∀ k w req resp,
  NoDup (Input <$> ps) →
  (∀ pl, pl ∈ ps → ∃ ch, chans w !! Input pl = Some ch ∧ closed ch = false) →
  Result_refs w r = Some (Some req, Some resp) →
  pair_clonable w req resp → I w req resp →
  ∃ w' req' resp',
    SendResult_loop quiet k ps (Some r) w = (Ok tt, w')
    ∧ Result_refs w' r = Some (Some req', Some resp')
    ∧ pair_clonable w' req' resp'
    ∧ Request_bytes w' req' = Request_bytes w req
    ∧ Response_bytes w' resp' = Response_bytes w resp
    ∧ (ps ≠ [] ∨ Request_ctx w req = Some Background →
       Request_ctx w' req' = Some Background)
    ∧ brokers w' = brokers w ∧ goroutines w' = goroutines w
    ∧ I w' req' resp'.
Proof.
  intros Hstep.
  induction ps as [|pl ps IH]; intros k w req resp Hnd Hopen Hrefs Hpair HI.
  - exists w, req, resp. do 5 (split; [done|]).
    split; [by intros [?|?]|done].
  - apply NoDup_cons in Hnd as [Hnotin Hnd].
    pose proof Hrefs as Hrefs0.
    unfold Result_refs in Hrefs.
    destruct (results w !! r) as [res|] eqn:Hres; [|done].
    injection Hrefs as Hreq Hresp.
    destruct (clone_pair_clonable w r res req resp Hres Hreq Hresp Hpair)
      as (w1 & Hrun1 & Hpair1 & Hb1 & Hb1' & Hctx1 & Hres1 & Hch1 & Hbr1 & Hg1).
    destruct (Hopen pl) as (ch & Hch & Hcl); [by left|].
    rewrite <- Hres1 in Hres. rewrite <- Hch1 in Hch.
    pose proof (deliver_eq pl r (length (requests w), length (responses w))
                  w1 res ch Hres Hch Hcl) as Hrun2.
    set (w2 := MkWorld (streams w1) (headers w1) (httpRequests w1)
                 (httpResponses w1) (requests w1) (responses w1)
                 (<[r := with_Response (Some (length (responses w)))
                           (with_Request (Some (length (requests w))) res)]>
                    (results w1))
                 (<[Input pl := {| closed := false;
                                   handed := handed ch ++ [Some r] |}]>
                    (chans w1))
                 (brokers w1) (goroutines w1)) in *.
    destruct (IH (S k) w2 (length (requests w)) (length (responses w)) Hnd)
      as (w' & req' & resp' & Hrun & Hrefs' & Hpair' & Hq' & Hp' & Hctx'
          & Hbr' & Hg' & HI').
    + intros pl' Hin. destruct (Hopen pl') as (ch' & Hch' & Hcl'); [by right|].
      exists ch'. split; [|done]. simpl.
      rewrite list_lookup_insert_ne; [by rewrite Hch1|].
      intros Heq. apply Hnotin. rewrite Heq. by apply list_elem_of_fmap_2.
    + unfold Result_refs. simpl.
      rewrite list_lookup_insert_eq by by eapply lookup_lt_Some. done.
    + exact Hpair1.
    + by apply (Hstep w req resp w1).
    + exists w', req', resp'. split.
      { simpl. erewrite bind_Ok by exact Hrun1.
        erewrite bind_Ok by exact Hrun2.
        erewrite bind_Ok by reflexivity. exact Hrun. }
      split; [done|]. split; [done|].
      split; [by rewrite Hq'|]. split; [by rewrite Hp'|].
      split; [intros _; apply Hctx'; by right|].
      split; [by rewrite Hbr'|]. split; [by rewrite Hg'|done].
Qed.



(** ** A [Result] without a response *)

(** X10. [SendResult] of a [Result] that has a request that can be cloned
    and no response, be it that its [Response] is [nil] or the wrapper of a
    [nil] response that [Do] returns next to an error: with a plugin or
    more on the broker the call panics.  By then the request has been
    cloned for the first plugin; nothing has been handed over, and the
    [Result] is as it was. *)
Theorem SendResult_without_Response_panics (act : Interference) (w : World)
    (p r req : nat) (b : PluginBroker) (res : Result) :
  brokers w !! p = Some b → plugins b ≠ [] →
  results w !! r = Some res → Request_ res = Some req →
  Request_clonable w req →
  Response_ res = None
  ∨ (∃ q, Response_ res = Some q ∧ responses w !! q = Some (MkResponse None)) →
  ∃ w', SendResult_with act (Some p) (Some r) w = (Panic, w')
        ∧ length (requests w') = S (length (requests w))
        ∧ chans w' = chans w ∧ results w' = results w.
Proof.
  intros Hb Hne Hres Hreq Hrq Hnone.
  destruct (plugins b) as [|pl rest] eqn:Hps; [done|].
  destruct (Request_CloneBody_clonable w req Background Hrq)
    as (w1 & cq & Hrun1 & _ & _ & _ & _ & _ & _ & Hresp1
        & _ & Hres1 & Hch1 & _ & _ & _ & _).
  assert (length (requests w1) = S (length (requests w))) as Hlen.
  { destruct Hrq as (rq & Hview & Hh & Ht & Hbody).
    apply Request_view_inv in Hview as (rw & i & Hr & Hi & Hrqi).
    destruct (rq_Body rq) as [b0|] eqn:Eb.
    - destruct Hbody as [|[bs Hbs]]; [done|].
      apply body_bytes_inv in Hbs as (b1 & s & [= <-] & Hs & Hf & _).
      rewrite (Request_CloneBody_eq w req rw i rq Background s) in Hrun1;
        auto; [|left; by rewrite Eb].
      injection Hrun1 as <-. unfold Request_CloneBody_world. rewrite Eb. simpl.
      rewrite length_app. simpl. lia.
    - rewrite (Request_CloneBody_eq w req rw i rq Background (bytes_reader []))
        in Hrun1; auto.
      injection Hrun1 as <-. unfold Request_CloneBody_world. rewrite Eb. simpl.
      rewrite length_app. simpl. lia. }
  exists (set_httpResponses (λ l, l ++ [zero_HttpResponse]) w1).
  split; [|by split].
  unfold SendResult_with, bind at 1, load. simpl. rewrite Hb, Hps. simpl.
  apply bind_Panic. unfold clone_pair.
  erewrite bind_Ok by (unfold load; simpl; by rewrite Hres).
  rewrite Hreq. erewrite bind_Ok by exact Hrun1.
  erewrite bind_Ok by (unfold load; simpl; by rewrite Hres1, Hres).
  apply bind_Panic.
  destruct Hnone as [->|(q & -> & Hq)].
  - reflexivity.
  - apply Response_CloneBody_nil_inner. by rewrite Hresp1.
Qed.

(** [ex_world5] with a [Result] for the request without a body, which has
    had no response. *)
Lemma SendResult_without_Response_panics_witness :
  ∃ w', SendResult_with quiet (Some 0%nat) (Some 1%nat) ex_world_no_response
        = (Panic, w')
        ∧ length (requests w') = S (length (requests ex_world_no_response))
        ∧ chans w' = chans ex_world_no_response
        ∧ results w' = results ex_world_no_response.
Proof.
  apply (SendResult_without_Response_panics quiet ex_world_no_response 0 1 1
           ex_broker5
           {| Request_ := Some 1%nat; Response_ := None;
              Payload := "<script>"; Location := "query"; FieldName := "q";
              TimeElapsed := 20 |}).
  - reflexivity.
  - done.
  - reflexivity.
  - reflexivity.
  - exists ex_request_no_body. split; [reflexivity|]. simpl.
    split; [lia|]. split; [done|]. by left.
  - by left.
Defined.

(** ** Results in a row *)

Lemma SendResult_chans p b r w w1 :
  brokers w !! p = Some b → NoDup (Input <$> plugins b) →
  SendResult (Some p) r w = (Ok tt, w1) →
  brokers w1 = brokers w
  ∧ ∀ c, chans w1 !! c
         = (if decide (c ∈ Input <$> plugins b)
            then handed_all [r] <$> chans w !! c
            else chans w !! c).
Proof.
  intros Hb Hnd H. split.
  - apply (keeps_same_Ok brokers _ _ _ _
             (SendResult_with_keeps (same brokers) quiet (Some p) r
                ltac:(frame) ltac:(intros; frame) (λ _ _, eq_refl)) H).
  - unfold SendResult, SendResult_with, bind at 1, load in H. simpl in H.
    rewrite Hb in H.
    destruct (SendResult_loop_chans quiet r _ _ _ _ (λ _ _, eq_refl) H)
      as [Hch _].
    intros c. rewrite Hch. case_decide as Hin.
    + by rewrite deliveries_NoDup.
    + rewrite deliveries_notin by done.
      destruct (chans w !! c); simpl; [|done]. by rewrite handed_more_0.
Qed.

(** X11. When a producer sends the results [rs] one after the other and
    every [SendResult] returns [nil], every plugin of the broker has been
    handed the pointers of [rs] on its channel, each once and in the order
    in which they were sent, after what it had been handed before; the
    other channels are as they were. *)
Theorem SendResult_in_order (p : nat) (b : PluginBroker) (rs : list ptr)
    (w w' : World) :
  brokers w !! p = Some b → NoDup (Input <$> plugins b) →
  SendResult_each (Some p) rs w = (Ok tt, w') →
  ∀ c, chans w' !! c
       = (if decide (c ∈ Input <$> plugins b)
          then handed_all rs <$> chans w !! c
          else chans w !! c).
Proof.
  intros Hb Hnd. revert w Hb.
  induction rs as [|r rs IH]; intros w Hb H c; simpl in H.
  - injection H as <-. case_decide; [|done].
    destruct (chans w !! c) as [[]|]; simpl; [|done].
    unfold handed_all. simpl. by rewrite app_nil_r.
  - apply bind_Ok_inv in H as ([] & w1 & H1 & H).
    destruct (SendResult_chans p b r w w1 Hb Hnd H1) as [Hbr Hch].
    rewrite (IH w1 ltac:(by rewrite Hbr) H c), (Hch c).
    case_decide; [|done].
    destruct (chans w !! c) as [ch|]; simpl; [|done].
    unfold handed_all. simpl. by rewrite <- app_assoc.
Qed.

(** Two plugins and the [Result] at 0 of [ex_world2], sent twice: the
    channels 0 and 1. *)
Lemma SendResult_in_order_witness :
  let rs := [Some 0%nat; Some 0%nat] in
  let ps := [ {| Input := 0; plugin_Listener := MkListener 1 |};
              {| Input := 1; plugin_Listener := MkListener 2 |} ] in
  let w' := (SendResult_each (Some 0%nat) rs ex_world2).2 in
  chans w' !! 0%nat
  = (if decide (0%nat ∈ Input <$> ps)
     then handed_all rs <$> chans ex_world2 !! 0%nat
     else chans ex_world2 !! 0%nat)
  ∧ chans w' !! 1%nat
    = (if decide (1%nat ∈ Input <$> ps)
       then handed_all rs <$> chans ex_world2 !! 1%nat
       else chans ex_world2 !! 1%nat).
Proof.
  intros rs ps w'.
  pose proof (SendResult_in_order 0 {| plugins := ps; waitGroup := 2 |} rs
                ex_world2 w') as H.
  split; apply H.
  - reflexivity.
  - apply (bool_decide_unpack _). vm_compute. exact I.
  - vm_compute. reflexivity.
  - reflexivity.
  - apply (bool_decide_unpack _). vm_compute. exact I.
  - vm_compute. reflexivity.
Defined.

(** ** The broker that does not clone *)

Lemma plugin_go_SendResult_loop_chans result ps : ∀ w w1,
  plugin_go.SendResult_loop ps result w = (Ok tt, w1) →
  ∀ c, chans w1 !! c = handed_more (deliveries ps c) result <$> chans w !! c.
Proof.
  induction ps as [|pl ps IH]; intros w w1 H c; simpl in H.
  - injection H as <-. destruct (chans w !! c); simpl; [|done].
    by rewrite handed_more_0.
  - apply bind_Ok_inv in H as ([] & wa & Ha & H).
    rewrite (IH _ _ H c), deliveries_cons.
    unfold chan_send in Ha.
    destruct (chans w !! Input pl) as [ch|] eqn:Hch; [|done].
    destruct (closed ch) eqn:Hcl; [done|]. injection Ha as <-. simpl.
    case_decide as Hc; [subst c|].
    + rewrite list_lookup_insert_eq by by eapply lookup_lt_Some.
      rewrite Hch. simpl. f_equal. unfold handed_more. simpl.
      rewrite <- app_assoc. by rewrite Hcl.
    + by rewrite list_lookup_insert_ne.
Qed.

Lemma chan_send_but_chans c v : keeps (same but_chans) (chan_send c v).
Proof.
  intros w. unfold chan_send, same.
  destruct (chans w !! c) as [ch|]; [|done]. by destruct (closed ch).
Qed.

Lemma plugin_go_SendResult_loop_but_chans result ps :
  keeps (same but_chans) (plugin_go.SendResult_loop ps result).
Proof.
  induction ps as [|pl ps IH]; simpl.
  - apply keeps_ret; tc_solve.
  - apply keeps_bind; [tc_solve | apply chan_send_but_chans | by intros _].
Qed.

(** X12. [SendResult] of [plugin.go], the broker that does not clone:
    whatever its outcome, it changes nothing in the store but channels.
    When it returns, every channel has been handed the pointer once per
    plugin that listens on it; and whenever the [SendResult] that clones
    returns [nil] from the same store, it has left the channels in that
    very state: the two differ in what the [Result] refers to afterwards,
    not in what the plugins are handed. *)
Theorem plugin_go_SendResult_hands_over (p result : ptr) (w : World) :
  but_chans (plugin_go.SendResult p result w).2 = but_chans w
  ∧ (∀ w1, plugin_go.SendResult p result w = (Ok tt, w1) →
       ∃ b, deref (brokers w) p = Some b
            ∧ ∀ c, chans w1 !! c
                   = handed_more (deliveries (plugins b) c) result
                       <$> chans w !! c)
  ∧ (∀ w1 w2, plugin_go.SendResult p result w = (Ok tt, w1) →
       SendResult p result w = (Ok tt, w2) → chans w2 = chans w1).
Proof.
  assert (∀ w1, plugin_go.SendResult p result w = (Ok tt, w1) →
            ∃ b, deref (brokers w) p = Some b
                 ∧ plugin_go.SendResult_loop (plugins b) result w = (Ok tt, w1))
    as Hinv.
  { intros w1 H. unfold plugin_go.SendResult, bind, load in H.
    destruct p as [l|]; [|done]. simpl in *.
    destruct (brokers w !! l) as [b|]; [|done]. by exists b. }
  split; [|split].
  - apply (keeps_bind (same but_chans));
      [apply keeps_load; tc_solve|].
    intros b. apply plugin_go_SendResult_loop_but_chans.
  - intros w1 (b & Hb & H)%Hinv. exists b. split; [done|].
    by apply plugin_go_SendResult_loop_chans.
  - intros w1 w2 (b & Hb & H1)%Hinv H2.
    unfold SendResult, SendResult_with, bind at 1, load in H2.
    destruct p as [l|]; [|done]. simpl in *. rewrite Hb in H2.
    destruct (SendResult_loop_chans quiet result _ _ _ _ (λ _ _, eq_refl) H2)
      as [Hch _].
    apply list_eq. intros c.
    by rewrite Hch, (plugin_go_SendResult_loop_chans _ _ _ _ H1 c).
Qed.

(** [ex_world2] and its two plugins: both versions return. *)
Lemma plugin_go_SendResult_hands_over_witness :
  ∃ w1,
    plugin_go.SendResult (Some 0%nat) (Some 0%nat) ex_world2 = (Ok tt, w1)
    ∧ SendResult (Some 0%nat) (Some 0%nat) ex_world2 = (Ok tt, ex_sent2)
    ∧ but_chans w1 = but_chans ex_world2
    ∧ chans ex_sent2 = chans w1.
Proof.
  destruct (plugin_go_SendResult_hands_over (Some 0%nat) (Some 0%nat)
              ex_world2) as (H1 & _ & H3).
  assert (plugin_go.SendResult (Some 0%nat) (Some 0%nat) ex_world2
          = (Ok tt, (plugin_go.SendResult (Some 0%nat) (Some 0%nat)
                       ex_world2).2)) as E1
    by (vm_compute; reflexivity).
  assert (SendResult (Some 0%nat) (Some 0%nat) ex_world2 = (Ok tt, ex_sent2))
    as E2 by (vm_compute; reflexivity).
  eexists. split; [exact E1|]. split; [exact E2|].
  split; [exact H1 | exact (H3 _ _ E1 E2)].
Defined.

(** ** What the producer keeps *)

(** The store after the two clones of a turn of [SendResult]: the request
    [rq] at [i], whose body, if it has one, is the reader [s], and the
    response [rs] at [i'], whose body is the reader [s'] at [b']. *)
Section clone_pair_world.
Context (w : World) (i : nat) (rq : HttpRequest) (s : Stream) (ctx : Context).
Context (i' b' : nat) (rs : HttpResponse) (s' : Stream).
Hypothesis Hrq : httpRequests w !! i = Some rq.
Hypothesis Hrs : httpResponses w !! i' = Some rs.
Hypothesis Hs' : streams w !! b' = Some s'.
Hypothesis Hbody : ∀ b, rq_Body rq = Some b → streams w !! b = Some s.
Hypothesis Hne : rq_Body rq ≠ Some b'.



















End clone_pair_world.












(** ** From [LoadPlugins] to [Wait] *)

Lemma run_workers_reachable returns p ids : ∀ w w',
  reachable returns p w → run_workers returns ids w = (Ok tt, w') →
  reachable returns p w'.
Proof.
  induction ids as [|i ids IH]; intros w w' Hr H; simpl in H.
  - by injection H as <-.
  - apply bind_Ok_inv in H as ([] & wa & Hstep & H).
    apply (IH wa w'); [|done]. by eapply reach_worker.
Qed.

Lemma run_workers_plugins returns ids : ∀ w w' p b,
  brokers w !! p = Some b → run_workers returns ids w = (Ok tt, w') →
  ∃ b', brokers w' !! p = Some b' ∧ plugins b' = plugins b.
Proof.
  induction ids as [|i ids IH]; intros w w' p b Hb H; simpl in H.
  - injection H as <-. by exists b.
  - apply bind_Ok_inv in H as ([] & wa & Hstep & H).
    apply worker_Ok in Hstep
      as (g & ch & p' & b' & _ & _ & _ & _ & _ & Hb' & _ & ->).
    destruct (decide (p' = p)) as [->|Hne].
    + rewrite Hb in Hb'. injection Hb' as <-.
      refine (IH _ w' p {| plugins := plugins b;
                           waitGroup := waitGroup b - 1 |} _ H).
      simpl. apply list_lookup_insert_eq. by eapply lookup_lt_Some.
    + refine (IH _ w' p b _ H). simpl. by rewrite list_lookup_insert_ne.
Qed.

(** X14. The calls of a producer fit together.  On the broker that
    [LoadPlugins] has returned, [SendResult] of a [Result] whose request
    and response can be cloned returns [nil]; [SignalDone] then returns;
    after it the goroutines of the plugins, for listeners that return when
    their channel is closed, all run to their end; and then [Wait]
    returns.  Nothing panics on the way. *)
Theorem lifecycle_completes (fs : PluginFiles) (logger : Logger)
    (paths : list string) (w w1 : World) (p r req resp : nat) :
  goroutines w = [] →
  LoadPlugins fs logger paths w = (Ok p, w1) →
  Result_refs w1 r = Some (Some req, Some resp) →
  pair_clonable w1 req resp →
  ∃ w2 w3 ids w4,
    SendResult (Some p) (Some r) w1 = (Ok tt, w2)
    ∧ SignalDone (Some p) w2 = (Ok tt, w3)
    ∧ run_workers until_closed ids w3 = (Ok tt, w4)
    ∧ Forall (λ g, g_phase g = Returned) (goroutines w4)
    ∧ length (goroutines w4) = length paths
    ∧ Wait (Some p) w4 = (Ok tt, w4).
Proof.
  intros Hg Hload Hrefs Hpair.
  pose proof (disp_LoadPlugins until_closed p fs logger paths w w1 Hg Hload)
    as Hd1.
  destruct (reachable_broker_inv _ _ _ (dispatching_reachable _ _ _ Hd1))
    as (b & Hb & HF1 & _ & _ & Hnd).
  pose proof (dispatching_all_open _ _ _ Hd1) as Hopen1.
  destruct (SendResult_loop_succeeds (λ _ _ _, True) r (plugins b)
              ltac:(done) 0 w1 req resp Hnd (λ pl, Hopen1 b pl Hb) Hrefs
              Hpair I)
    as (w2 & _ & _ & Hrun & _ & _ & _ & _ & _ & Hbr2 & Hg2 & _).
  assert (SendResult (Some p) (Some r) w1 = (Ok tt, w2)) as Hsend.
  { unfold SendResult, SendResult_with, bind at 1, load. simpl.
    by rewrite Hb. }
  assert (gentle quiet) as Hquiet by done.
  pose proof (disp_SendResult until_closed p quiet (Some r) w1 (Ok tt) w2
                Hd1 Hquiet Hsend) as Hd2.
  pose proof (dispatching_all_open _ _ _ Hd2) as Hopen2.
  assert (brokers w2 !! p = Some b) as Hb2 by by rewrite Hbr2.
  destruct (close_all_Ok (plugins b) w2 Hnd (λ pl, Hopen2 b pl Hb2))
    as [w3 Hclose].
  assert (SignalDone (Some p) w2 = (Ok tt, w3)) as Hsig.
  { unfold SignalDone, bind at 1, load. simpl. by rewrite Hb2. }
  destruct (close_all_closed _ _ _ Hclose) as (Hall & _ & Hbr3).
  assert (all_closed p w3) as Hclosed.
  { intros b' pl Hb' Hpl. rewrite Hbr3, Hb2 in Hb'. injection Hb' as <-.
    by apply Hall. }
  pose proof (reach_SignalDone until_closed p w2 (Ok tt) w3
                (dispatching_reachable _ _ _ Hd2) Hsig) as Hr3.
  assert (honours_contract until_closed) as Hcon by by intros l ch H.
  destruct (workers_drain until_closed p (listening (goroutines w3)) w3
              Hcon Hr3 Hclosed eq_refl)
    as (ids & w4 & Hrun4 & Hret & Hwait).
  exists w2, w3, ids, w4. do 4 (split; [done|]). split; [|done].
  pose proof (run_workers_reachable _ _ _ _ _ Hr3 Hrun4) as Hr4.
  destruct (reachable_broker_inv _ _ _ Hr4) as (b4 & Hb4 & HF4 & _).
  rewrite <- (Forall2_length _ _ _ HF4).
  destruct (run_workers_plugins until_closed ids w3 w4 p b
              ltac:(by rewrite Hbr3) Hrun4) as (b4' & Hb4' & Hps).
  rewrite Hb4 in Hb4'. injection Hb4' as <-. rewrite Hps.
  rewrite LoadPlugins_eq in Hload.
  destruct (load_all fs logger paths) as [ls| | |] eqn:Hls; try done.
  injection Hload as <- <-.
  rewrite (load_all_loaded_before _ _ _ _ Hls) in Hb.
  unfold LoadPlugins_world in Hb. simpl in Hb.
  rewrite insert_snoc_new in Hb by done.
  rewrite lookup_snoc_new in Hb. injection Hb as <-. simpl.
  rewrite register_at_length.
  symmetry. eapply Forall2_length. by apply load_all_Ok.
Qed.

(** [LoadPlugins] of five modules in [ex_world], and the [Result] at 0. *)
Lemma lifecycle_completes_witness :
  ∃ w2 w3 ids w4,
    SendResult (Some 0%nat) (Some 0%nat) ex_world5 = (Ok tt, w2)
    ∧ SignalDone (Some 0%nat) w2 = (Ok tt, w3)
    ∧ run_workers until_closed ids w3 = (Ok tt, w4)
    ∧ Forall (λ g, g_phase g = Returned) (goroutines w4)
    ∧ length (goroutines w4) = length ex_paths5
    ∧ Wait (Some 0%nat) w4 = (Ok tt, w4).
Proof.
  apply (lifecycle_completes ex_files ex_logger ex_paths5 ex_world ex_world5
           0 0 0 0).
  - reflexivity.
  - vm_compute. reflexivity.
  - reflexivity.
  - split; [|split].
    + exists ex_request. split; [reflexivity|]. simpl.
      split; [lia|]. split; [done|]. right. by eexists.
    + exists ex_response. split; [reflexivity|]. simpl.
      split; [lia|]. split; [done|]. by eexists.
    + intros rq rs [= <-] [= <-]. done.
Defined.

(** ** What the calls on the broker leave alone *)

Lemma break_Request_Body_brokers result e :
  keeps (same brokers) (break_Request_Body result e).
Proof. unfold break_Request_Body. frame. Qed.

Lemma break_Request_Body_goroutines result e :
  keeps (same goroutines) (break_Request_Body result e).
Proof. unfold break_Request_Body. frame. Qed.

Lemma chan_close_but_chans c : keeps (same but_chans) (chan_close c).
Proof.
  intros w. unfold chan_close, same.
  destruct (chans w !! c) as [ch|]; [|done]. by destruct (closed ch).
Qed.

Lemma chan_close_handed c : keeps (same handed_logs) (chan_close c).
Proof.
  intros w. unfold chan_close, same, handed_logs.
  destruct (chans w !! c) as [ch|] eqn:Hc; [|done].
  destruct (closed ch); [done|]. simpl.
  rewrite list_fmap_insert. simpl. apply list_insert_id.
  by rewrite list_lookup_fmap, Hc.
Qed.

(** X15. What the calls on the broker never do, whatever their outcome.
    [SendResult], next to plugins that leave the broker, the goroutines and
    the channels alone, changes neither the plugins nor the wait group of a
    broker, starts no goroutine, and closes, opens or makes no channel.
    [SignalDone] changes nothing in the store but channels, and of these
    nothing but that they are closed: what had been handed over on them is
    still there.  [Wait] changes nothing at all. *)
Theorem broker_calls_leave_alone (act : Interference) (p result : ptr)
    (w : World) :
  gentle act →
  (brokers (SendResult_with act p result w).2 = brokers w
   ∧ goroutines (SendResult_with act p result w).2 = goroutines w
   ∧ closed_flags (SendResult_with act p result w).2 = closed_flags w)
  ∧ (but_chans (SignalDone p w).2 = but_chans w
     ∧ handed_logs (SignalDone p w).2 = handed_logs w)
  ∧ (Wait p w).2 = w.
Proof.
  intros Hact. split; [|split].
  - split; [|split].
    + apply (SendResult_with_keeps (same brokers) act p result
               ltac:(frame) ltac:(intros; frame) (λ k w, proj1 (Hact k w))).
    + apply (SendResult_with_keeps (same goroutines) act p result
               ltac:(frame) ltac:(intros; frame)
               (λ k w, proj1 (proj2 (Hact k w)))).
    + apply (SendResult_with_keeps (same closed_flags) act p result
               ltac:(frame) (λ pl cl, deliver_flags pl result cl)
               (λ k w, f_equal (fmap closed) (proj2 (proj2 (Hact k w))))).
  - split.
    + apply (SignalDone_keeps (same but_chans)), chan_close_but_chans.
    + apply (SignalDone_keeps (same handed_logs)), chan_close_handed.
  - unfold Wait, bind, load. destruct p as [l|]; [|done]. simpl.
    destruct (brokers w !! l) as [b|]; [|done].
    by destruct (waitGroup b =? 0).
Qed.

Lemma ex_act_gentle : gentle ex_act.
Proof.
  intros k w. unfold ex_act. destruct (k =? 1)%nat; [|done].
  split; [|split].
  - apply break_Request_Body_brokers.
  - apply break_Request_Body_goroutines.
  - apply break_Request_Body_chans.
Qed.

(** [ex_world5] and the [Result] at 0, with the plugins of [ex_act]. *)
Lemma broker_calls_leave_alone_witness :
  (brokers (SendResult_with ex_act (Some 0%nat) (Some 0%nat) ex_world5).2
   = brokers ex_world5
   ∧ goroutines (SendResult_with ex_act (Some 0%nat) (Some 0%nat) ex_world5).2
     = goroutines ex_world5
   ∧ closed_flags (SendResult_with ex_act (Some 0%nat) (Some 0%nat) ex_world5).2
     = closed_flags ex_world5)
  ∧ (but_chans (SignalDone (Some 0%nat) ex_world5).2 = but_chans ex_world5
     ∧ handed_logs (SignalDone (Some 0%nat) ex_world5).2
       = handed_logs ex_world5)
  ∧ (Wait (Some 0%nat) ex_world5).2 = ex_world5.
Proof.
  apply (broker_calls_leave_alone ex_act (Some 0%nat) (Some 0%nat) ex_world5).
  exact ex_act_gentle.
Defined.
